(** * binary-cookie-extractor: the decoding core, embedded and verified

    A shallow embedding of [binary-cookie-extractor.go] (revision v1.0, the
    first of the two concatenated revisions; the v0.9 revision has the same
    decoding functions and differs only in how the decoded fields are
    stored and printed).

    Go values are modelled as follows.
    - [byte] is the Standard Library's [Byte.byte]; [uint64] is [N] with
      the wrap-around modulo 2^64 written out; [int] and [int64] are [Z]
      (64-bit two's complement).
    - a [[]byte] that the program re-slices (the file contents, a page, a
      raw cookie) is a [slice]: the elements below [len] together with the
      elements of the backing array between [len] and [cap], since a Go
      slice expression [s[lo:hi]] is checked against [cap(s)] whereas
      [s[lo:]] and an index are checked against [len(s)].
    - a [[]byte] that is only built by [append] and read through [len] and
      indexing is the list of its elements.
    - a run-time panic and [os.Exit] are the two abnormal outcomes of the
      [outcome] monad. *)

From Stdlib Require Import String Ascii.
From Stdlib Require Import List ZArith NArith PArith Lia Bool.
From Stdlib Require Import Strings.Byte.
From Stdlib Require Import Floats.SpecFloat.
Import ListNotations.

Local Open Scope N_scope.

(** ** Outcomes of Go code *)

Inductive outcome (A : Type) : Type :=
| Ok (a : A)          (* normal completion *)
| Panic               (* run-time panic (slice bounds out of range) *)
| Exit (status : Z).  (* os.Exit(status) *)

Arguments Ok {A} a.
Arguments Panic {A}.
Arguments Exit {A} status.

Definition bind {A B : Type} (m : outcome A) (k : A -> outcome B) : outcome B :=
  match m with
  | Ok a => k a
  | Panic => Panic
  | Exit st => Exit st
  end.

Notation "x <- m ;; k" := (bind m (fun x => k))
  (at level 61, m at next level, right associativity).

(** ** Machine integers *)

Definition wrap64 (n : N) : N := n mod 2 ^ 64.

(** [int(x)] for [x : uint64] on a platform with 64-bit [int]. *)
Definition int_of_uint64 (x : N) : Z :=
  if x <? 2 ^ 63 then Z.of_N x else (Z.of_N x - 2 ^ 64)%Z.

(** [uint64(x)] for [x : int]. *)
Definition uint64_of_int (x : Z) : N := Z.to_N (x mod 2 ^ 64)%Z.

(** Two's complement wrap-around of [int64] arithmetic. *)
Definition wrap_int64 (z : Z) : Z :=
  ((z + 2 ^ 63) mod 2 ^ 64 - 2 ^ 63)%Z.

(** ** Go slices of bytes *)

Record slice : Type := mkSlice {
  elems : list byte;   (* s[0], ..., s[len(s)-1] *)
  spare : list byte    (* the backing array from len(s) up to cap(s) *)
}.

Definition backing (s : slice) : list byte := elems s ++ spare s.
Definition len (s : slice) : N := N.of_nat (length (elems s)).
Definition cap (s : slice) : N := N.of_nat (length (backing s)).

(** [s[lo:hi]]: panics unless [lo <= hi <= cap(s)]. *)
Definition slice_lh (s : slice) (lo hi : N) : outcome slice :=
  if (lo <=? hi) && (hi <=? cap s) then
    Ok (mkSlice (firstn (N.to_nat (hi - lo)) (skipn (N.to_nat lo) (backing s)))
                (skipn (N.to_nat hi) (backing s)))
  else Panic.

(** [s[lo:]], that is [s[lo:len(s)]]: panics unless [lo <= len(s)]. *)
Definition slice_l (s : slice) (lo : N) : outcome slice :=
  if lo <=? len s then
    Ok (mkSlice (skipn (N.to_nat lo) (elems s)) (spare s))
  else Panic.

(** [s[:hi]], that is [s[0:hi]]. *)
Definition slice_h (s : slice) (hi : N) : outcome slice := slice_lh s 0 hi.

(** ** encoding/hex and strconv *)

Definition hextable : list ascii := list_ascii_of_string "0123456789abcdef".

(** [hex.EncodeToString]: two lower-case digits per byte, high nibble first. *)
Fixpoint EncodeToString (src : list byte) : string :=
  match src with
  | [] => EmptyString
  | v :: rest =>
      String (nth (N.to_nat (Byte.to_N v / 16)) hextable "0"%char)
        (String (nth (N.to_nat (Byte.to_N v mod 16)) hextable "0"%char)
           (EncodeToString rest))
  end.

Inductive NumError : Type := ErrSyntax | ErrRange.

(** The digit value [strconv.ParseUint] gives a character, if any. *)
Definition digit_of (c : ascii) : option N :=
  let n := N_of_ascii c in
  if (48 <=? n) && (n <=? 57) then Some (n - 48)
  else
    let l := N.lor n 32 in  (* lower(c) *)
    if (97 <=? l) && (l <=? 122) then Some (l - 97 + 10) else None.

(** The digit loop of [strconv.ParseUint] for [2 <= base <= 36]. *)
Fixpoint ParseUint_loop (s : string) (base cutoff maxVal n : N)
  : N * option NumError :=
  match s with
  | EmptyString => (n, None)
  | String c rest =>
      match digit_of c with
      | None => (0, Some ErrSyntax)
      | Some d =>
          if base <=? d then (0, Some ErrSyntax)
          else if cutoff <=? n then (maxVal, Some ErrRange)
          else
            let n' := wrap64 (n * base) in
            let n1 := wrap64 (n' + d) in
            if (n1 <? n') || (maxVal <? n1) then (maxVal, Some ErrRange)
            else ParseUint_loop rest base cutoff maxVal n1
      end
  end.

Definition maxUint64 : N := 2 ^ 64 - 1.

(** [strconv.ParseUint(s, base, bitSize)] for an explicit base and
    [1 <= bitSize <= 64]; the value returned with an error is the one the
    caller gets when it drops the error. *)
Definition ParseUint (s : string) (base bitSize : N) : N * option NumError :=
  match s with
  | EmptyString => (0, Some ErrSyntax)
  | _ => ParseUint_loop s base (maxUint64 / base + 1) (2 ^ bitSize - 1) 0
  end.

(** ** Helpers of the program *)

(** [reverseByteSlice]: the loop counter [i] of the source is [k - 1]. *)
Fixpoint reverseByteSlice_loop (data : list byte) (k : nat) (result : list byte)
  : list byte :=
  match k with
  | O => result
  | S i => reverseByteSlice_loop data i (result ++ [nth i data x00])
  end.

Definition reverseByteSlice (data : list byte) : list byte :=
  reverseByteSlice_loop data (length data) [].

(** [convertHexToUint]: the error of [ParseUint] is dropped. *)
Definition convertHexToUint (bytes : list byte) : N :=
  fst (ParseUint (EncodeToString bytes) 16 64).

(** [scanUntilNullByte]: [data] is what remains to be visited. *)
Fixpoint scanUntilNullByte_loop (data result : list byte) : list byte :=
  match data with
  | [] => result
  | b :: rest =>
      if Byte.eqb b x00 then result
      else scanUntilNullByte_loop rest (result ++ [b])
  end.

Definition scanUntilNullByte (data : list byte) : list byte :=
  scanUntilNullByte_loop data [].

(** ** math.Float64frombits and the conversion to [int64] *)

(** [math.Float64frombits]: the IEEE-754 binary64 value of a 64-bit
    pattern, as the Standard Library's [spec_float]; [S754_finite s m e]
    is [(-1)^s * m * 2^e]. *)
Definition Float64frombits (b : N) : spec_float :=
  let sign := N.testbit b 63 in
  let expo := N.land (N.shiftr b 52) 2047 in
  let frac := N.land b (2 ^ 52 - 1) in
  if expo =? 0 then
    match frac with
    | N0 => S754_zero sign
    | Npos m => S754_finite sign m (-1074)
    end
  else if expo =? 2047 then
    if frac =? 0 then S754_infinity sign else S754_nan
  else
    match frac + 2 ^ 52 with
    | N0 => S754_zero sign
    | Npos m => S754_finite sign m (Z.of_N expo - 1075)
    end.

(** The integer part of a finite double (rounding towards zero). *)
Definition float64_trunc (f : spec_float) : option Z :=
  match f with
  | S754_zero _ => Some 0%Z
  | S754_finite s m e =>
      let mag := if (0 <=? e)%Z then (Zpos m * 2 ^ e)%Z
                 else (Zpos m / 2 ^ (- e))%Z in
      Some (if s then (- mag)%Z else mag)
  | S754_infinity _ | S754_nan => None
  end.

(** What [int64(c)] gives when [c] is a NaN, an infinity or out of range.
    Go leaves it to the implementation; this is the value on amd64. *)
Definition int64_indefinite : Z := (- 2 ^ 63)%Z.

(** [int64(c)] for [c : float64]. *)
Definition int64_of_float64 (c : spec_float) : Z :=
  match float64_trunc c with
  | Some t =>
      if ((- 2 ^ 63 <=? t) && (t <? 2 ^ 63))%Z then t else int64_indefinite
  | None => int64_indefinite
  end.

(** [convertHexToCoreDataTime]: the [time.Time] returned is the instant
    [time.Unix(sec, 0)], modelled by [sec]. *)
Definition convertHexToCoreDataTime (bytes : list byte) : Z :=
  let a := EncodeToString (reverseByteSlice bytes) in
  let b := fst (ParseUint a 16 64) in
  let c := Float64frombits b in
  let d := int64_of_float64 c in
  wrap_int64 (d + 978307200).

(** ** The structs of the program *)

(** [Name], [Value], [Domain] and [Path] are Go strings, sequences of
    bytes.  [Expires] and [LastAccessed] hold the text of an instant
    ([time.Time.String]); the instant stands for its text, and [None] for
    the empty string of a cookie that is not decoded yet. *)
Record cookie : Type := mkCookie {
  rawBytes : slice;
  Size : N;
  Name : list byte;
  Value : list byte;
  Domain : list byte;
  Path : list byte;
  Flags : string;
  Expires : option Z;
  LastAccessed : option Z
}.

Record page : Type := mkPage {
  page_rawBytes : slice;
  numCookiesInPage : N;
  cookieOffsets : list N;
  cookies : list cookie
}.

Record pages : Type := mkPages {
  pages_pages : list page;
  numPages : N;
  pageSizes : list N;
  headerSize : N
}.

Definition nil_slice : slice := mkSlice [] [].

(** [var newCookie cookie; newCookie.rawBytes = raw]. *)
Definition newCookie (raw : slice) : cookie :=
  mkCookie raw 0 [] [] [] [] EmptyString None None.

(** [var page page; page.rawBytes = raw]. *)
Definition newPage (raw : slice) : page := mkPage raw 0 [] [].

(** ** checkFileMagicNumber *)

Fixpoint bytes_eqb (a b : list byte) : bool :=
  match a, b with
  | [], [] => true
  | x :: a', y :: b' => Byte.eqb x y && bytes_eqb a' b'
  | _, _ => false
  end.

Definition magic : list byte := list_byte_of_string "cook".

Definition checkFileMagicNumber (data : slice) : outcome unit :=
  magicNum <- slice_h data 4 ;;
  if negb (bytes_eqb (elems magicNum) magic) then Exit 1 else Ok tt.

(** ** parseSizeOfPages and extractPages *)

(** The loop of [parseSizeOfPages]; [count] is the number of iterations
    left.  [startOffset] and [endOffset] are of type [int]; they stay
    below 2^35 and are written in [N]. *)
Fixpoint parseSizeOfPages_loop (data : slice) (count : nat)
    (startOffset endOffset : N) : outcome (list N) :=
  match count with
  | O => Ok []
  | S count' =>
      s <- slice_lh data startOffset endOffset ;;
      let pageSize := convertHexToUint (elems s) in
      result <- parseSizeOfPages_loop data count' (startOffset + 4) (endOffset + 4) ;;
      Ok (pageSize :: result)
  end.

Definition parseSizeOfPages (data : slice) (pages : N) : outcome (list N) :=
  parseSizeOfPages_loop data (Z.to_nat (int_of_uint64 pages)) 8 12.

(** The page loop of [extractPages] over the page sizes still to visit;
    the test [i == len(pages.pageSizes)-1] is [rest = []]. *)
Fixpoint extractPages_loop (data : slice) (headerSize : N) (sizes : list N)
    (offsetCounter : N) : outcome (list page) :=
  match sizes with
  | [] => Ok []
  | size_i :: rest =>
      match rest with
      | [] =>
          raw <- slice_l data (wrap64 (headerSize + offsetCounter)) ;;
          Ok [newPage raw]
      | _ :: _ =>
          raw <- slice_lh data (wrap64 (headerSize + offsetCounter))
                               (wrap64 (headerSize + size_i)) ;;
          ps <- extractPages_loop data headerSize rest
                  (wrap64 (offsetCounter + size_i)) ;;
          Ok (newPage raw :: ps)
      end
  end.

(** The first statements of [extractPages]: the header fields
    [(numPages, pageSizes, headerSize)]. *)
Definition extractPages_header (data : slice) : outcome (N * list N * N) :=
  s <- slice_lh data 4 8 ;;
  let numPages := convertHexToUint (elems s) in
  pageSizes <- parseSizeOfPages data numPages ;;
  let headerSize := wrap64 (wrap64 (numPages * 4) + 8) in
  Ok (numPages, pageSizes, headerSize).

Definition extractPages (data : slice) : outcome pages :=
  hdr <- extractPages_header data ;;
  let '(numPages, pageSizes, headerSize) := hdr in
  ps <- extractPages_loop data headerSize pageSizes 0 ;;
  Ok (mkPages ps numPages pageSizes headerSize).

(** ** extractCookiesFromPages *)

(** [convertHexToUint(reverseByteSlice(raw[lo:hi]))]. *)
Definition readField (raw : slice) (lo hi : N) : outcome N :=
  s <- slice_lh raw lo hi ;;
  Ok (convertHexToUint (reverseByteSlice (elems s))).

(** [string(scanUntilNullByte(raw[off:]))]. *)
Definition readText (raw : slice) (off : N) : outcome (list byte) :=
  s <- slice_l raw off ;;
  Ok (scanUntilNullByte (elems s)).

(** A slice expression whose bounds are of type [int]. *)
Definition slice_l_int (s : slice) (lo : Z) : outcome slice :=
  if (lo <? 0)%Z then Panic else slice_l s (Z.to_N lo).

Definition slice_lh_int (s : slice) (lo hi : Z) : outcome slice :=
  if ((lo <? 0) || (hi <? 0))%Z then Panic
  else slice_lh s (Z.to_N lo) (Z.to_N hi).

(** The first inner loop: the offsets appended to [cookieOffsets]. *)
Fixpoint cookieOffsets_loop (raw : slice) (count : nat)
    (startOffset endOffset : N) : outcome (list N) :=
  match count with
  | O => Ok []
  | S count' =>
      cookieLen <- readField raw startOffset endOffset ;;
      rest <- cookieOffsets_loop raw count' (startOffset + 4) (endOffset + 4) ;;
      Ok (cookieLen :: rest)
  end.

(** The second inner loop over the offsets still to visit; the test
    [k == len(cookieOffsets)-1] is [rest = []]. *)
Fixpoint cookies_loop (raw : slice) (offsets : list N) : outcome (list cookie) :=
  match offsets with
  | [] => Ok []
  | off_k :: rest =>
      match rest with
      | [] =>
          r <- slice_l_int raw (int_of_uint64 off_k) ;;
          Ok [newCookie r]
      | off_k1 :: _ =>
          r <- slice_lh_int raw (int_of_uint64 off_k) (int_of_uint64 off_k1) ;;
          cs <- cookies_loop raw rest ;;
          Ok (newCookie r :: cs)
      end
  end.

(** The number of cookies of a page as the program reads it: the digits
    of the byte-reversed field are parsed in base 10. *)
Definition parseNumCookies (raw : slice) : outcome N :=
  s <- slice_lh raw 4 8 ;;
  Ok (fst (ParseUint (EncodeToString (reverseByteSlice (elems s))) 10 64)).

(** The body of the page loop of [extractCookiesFromPages]. *)
Definition extractCookiesFromPage (p : page) : outcome page :=
  a <- parseNumCookies (page_rawBytes p) ;;
  offs <- cookieOffsets_loop (page_rawBytes p) (Z.to_nat (int_of_uint64 a)) 8 12 ;;
  let offsets := cookieOffsets p ++ offs in
  cs <- cookies_loop (page_rawBytes p) offsets ;;
  Ok (mkPage (page_rawBytes p) a offsets (cookies p ++ cs)).

Fixpoint extractCookiesFromPages_loop (ps : list page) : outcome (list page) :=
  match ps with
  | [] => Ok []
  | p :: rest =>
      p' <- extractCookiesFromPage p ;;
      rest' <- extractCookiesFromPages_loop rest ;;
      Ok (p' :: rest')
  end.

(** [extractCookiesFromPages] receives the struct by value, but the
    elements of [pages.pages] are shared with the caller; the updated
    struct is what the caller sees afterwards. *)
Definition extractCookiesFromPages (pgs : pages) : outcome pages :=
  ps <- extractCookiesFromPages_loop (pages_pages pgs) ;;
  Ok (mkPages ps (numPages pgs) (pageSizes pgs) (headerSize pgs)).

(** ** decodeCookies *)

(** The [switch b] on the flags value. *)
Definition flagText (b : Z) : string :=
  match b with
  | 0%Z => "None"
  | 1%Z => "Secure"
  | 4%Z => "HttpOnly"
  | 5%Z => "Secure; HttpOnly"
  | _ => "Unknown"
  end.

(** The body of the inner loop of [decodeCookies] for the cookie [ck] at
    [pages.pages[i].cookies[j]]: the element as it is left in place, and
    [aCookie], the value appended to [*allCookies]. *)
Definition decodeCookie (ck : cookie) : outcome (cookie * cookie) :=
  let raw := rawBytes ck in
  a <- slice_h raw 4 ;;
  let intA := int_of_uint64 (convertHexToUint (reverseByteSlice (elems a))) in
  fl <- readField raw 8 12 ;;
  let b := int_of_uint64 fl in
  let flagText := flagText b in
  domainOffset <- readField raw 16 20 ;;
  nameOffset <- readField raw 20 24 ;;
  pathOffset <- readField raw 24 28 ;;
  valueOffset <- readField raw 28 32 ;;
  name <- readText raw nameOffset ;;
  value <- readText raw valueOffset ;;
  domain <- readText raw domainOffset ;;
  path <- readText raw pathOffset ;;
  expiresRaw <- slice_lh raw 40 48 ;;
  lastAccessedRaw <- slice_lh raw 48 56 ;;
  let expires := Some (convertHexToCoreDataTime (elems expiresRaw)) in
  let lastAccessed := Some (convertHexToCoreDataTime (elems lastAccessedRaw)) in
  let inPlace :=
    mkCookie raw (uint64_of_int intA) name value domain path flagText
             expires lastAccessed in
  let aCookie :=
    mkCookie raw (uint64_of_int intA) name value domain path flagText
             expires lastAccessed in
  Ok (inPlace, aCookie).

(** The inner loop over the cookies of one page. *)
Fixpoint decodeCookies_page (cs : list cookie) (allCookies : list cookie)
  : outcome (list cookie * list cookie) :=
  match cs with
  | [] => Ok ([], allCookies)
  | ck :: rest =>
      r <- decodeCookie ck ;;
      let '(inPlace, aCookie) := r in
      r' <- decodeCookies_page rest (allCookies ++ [aCookie]) ;;
      let '(rest', allCookies') := r' in
      Ok (inPlace :: rest', allCookies')
  end.

(** The outer loop over the pages. *)
Fixpoint decodeCookies_loop (ps : list page) (allCookies : list cookie)
  : outcome (list page * list cookie) :=
  match ps with
  | [] => Ok ([], allCookies)
  | p :: rest =>
      r <- decodeCookies_page (cookies p) allCookies ;;
      let '(cs, allCookies') := r in
      r' <- decodeCookies_loop rest allCookies' ;;
      let '(rest', allCookies'') := r' in
      Ok (mkPage (page_rawBytes p) (numCookiesInPage p) (cookieOffsets p) cs
            :: rest', allCookies'')
  end.

(** [decodeCookies(pages, &allCookies)]: the pages as the caller sees them
    afterwards and the new contents of [*allCookies]. *)
Definition decodeCookies (pgs : pages) (allCookies : list cookie)
  : outcome (pages * list cookie) :=
  r <- decodeCookies_loop (pages_pages pgs) allCookies ;;
  let '(ps, allCookies') := r in
  Ok (mkPages ps (numPages pgs) (pageSizes pgs) (headerSize pgs), allCookies').

(** The decoding part of [main], from the file contents to the decoded
    cookies handed to the output functions. *)
Definition decodeFile (data : slice) : outcome (pages * list cookie) :=
  _ <- checkFileMagicNumber data ;;
  pgs <- extractPages data ;;
  pgs' <- extractCookiesFromPages pgs ;;
  decodeCookies pgs' [].

(** ** Reference notions the statements are written with *)

(** The unsigned integer whose big-endian bytes are [bs]. *)
Definition uint_be (bs : list byte) : N :=
  fold_left (fun acc b => acc * 256 + Byte.to_N b) bs 0.

(** The unsigned integer whose little-endian bytes are [bs]. *)
Fixpoint uint_le (bs : list byte) : N :=
  match bs with
  | [] => 0
  | b :: rest => Byte.to_N b + 256 * uint_le rest
  end.

(** The bytes [[lo, lo + n)] of a list. *)
Definition bytes_at (l : list byte) (lo n : nat) : list byte :=
  firstn n (skipn lo l).

(** [txt] is the text field of [record] at [off]: the bytes from [off] up
    to, and without, the first NUL, or up to the end of [record]. *)
Definition is_text_field (record : list byte) (off : nat) (txt : list byte)
  : Prop :=
  exists rest,
    skipn off record = txt ++ rest /\
    Forall (fun b => b <> x00) txt /\
    (rest = [] \/ exists rest', rest = x00 :: rest').

Definition sumN (l : list N) : N := fold_right N.add 0 l.

(** The little-endian 32-bit field at [lo]. *)
Definition field_le (bs : list byte) (lo : nat) : N := uint_le (bytes_at bs lo 4).

(** The NUL-terminated text of the record [raw] at offset [off], bounded
    by the length of the record. *)
Definition text_at (raw : slice) (off : N) : list byte :=
  scanUntilNullByte (skipn (N.to_nat off) (elems raw)).

(** The offsets of the four text fields: name, value, domain, path. *)
Definition nameOffset_of (raw : slice) : N := field_le (backing raw) 20.
Definition valueOffset_of (raw : slice) : N := field_le (backing raw) 28.
Definition domainOffset_of (raw : slice) : N := field_le (backing raw) 16.
Definition pathOffset_of (raw : slice) : N := field_le (backing raw) 24.

(** The records [decodeCookies] can decode: the 56 bytes of fixed fields
    lie within the capacity of the record, and no text offset is beyond
    its length. *)
Definition decodable (raw : slice) : Prop :=
  56 <= cap raw /\
  nameOffset_of raw <= len raw /\ valueOffset_of raw <= len raw /\
  domainOffset_of raw <= len raw /\ pathOffset_of raw <= len raw.

(** The decoded form of a decodable record. *)
Definition decoded (raw : slice) : cookie :=
  mkCookie raw
    (field_le (backing raw) 0)
    (text_at raw (nameOffset_of raw))
    (text_at raw (valueOffset_of raw))
    (text_at raw (domainOffset_of raw))
    (text_at raw (pathOffset_of raw))
    (flagText (Z.of_N (field_le (backing raw) 8)))
    (Some (convertHexToCoreDataTime (bytes_at (backing raw) 40 8)))
    (Some (convertHexToCoreDataTime (bytes_at (backing raw) 48 8))).

(** The offset table of a page with [n] cookies: [n] little-endian
    32-bit entries from byte 8 onwards. *)
Definition offset_table (raw : slice) (n : N) : list N :=
  map (fun i => field_le (backing raw) (8 + 4 * i)) (seq 0 (N.to_nat n)).

(** The bytes of the records of a page, in the order of its offsets: a
    record runs from its offset to the next one, the last to the end of
    the page. *)
Fixpoint record_spans (raw : slice) (offsets : list N) : list (list byte) :=
  match offsets with
  | [] => []
  | off :: rest =>
      match rest with
      | [] => skipn (N.to_nat off) (elems raw)
      | next :: _ => bytes_at (backing raw) (N.to_nat off) (N.to_nat (next - off))
      end :: record_spans raw rest
  end.

(** A page whose cookies are those of its offset table, in order. *)
Definition page_extracted (p : page) : Prop :=
  parseNumCookies (page_rawBytes p) = Ok (numCookiesInPage p) /\
  cookieOffsets p = offset_table (page_rawBytes p) (numCookiesInPage p) /\
  map (fun c => elems (rawBytes c)) (cookies p)
    = record_spans (page_rawBytes p) (cookieOffsets p) /\
  N.of_nat (length (cookies p)) = numCookiesInPage p.

(** The name the specification gives a flags value. *)
Definition flag_name (v : N) : string :=
  if v =? 0 then "None"
  else if v =? 1 then "Secure"
  else if v =? 4 then "HttpOnly"
  else if v =? 5 then "Secure; HttpOnly"
  else "Unknown".

(** ** Auxiliary notions and the byte sequences of the examples *)

(** A page with the count field [0a 00 00 00] and no offset table. *)
Definition page_count_0a : slice :=
  mkSlice [x00; x00; x01; x00; x0a; x00; x00; x00; x00; x00; x00; x00] [].

(** The first 8 bytes of a page with the count field [10 00 00 00]. *)
Definition page_count_10 : list byte :=
  [x00; x00; x01; x00; x10; x00; x00; x00].

(** A header announcing 2 pages, of sizes 3 and 256. *)
Definition header_fixture : slice :=
  mkSlice (list_byte_of_string "cook"
           ++ [x00; x00; x00; x02] ++ [x00; x00; x00; x03] ++ [x00; x00; x01; x00]
           ++ [x61; x62; x63; x64]) [].

(** Three pages of sizes 2, 2 and 1 after a 20-byte header. *)
Definition three_pages : slice :=
  mkSlice (list_byte_of_string "cook"
           ++ [x00; x00; x00; x03]
           ++ [x00; x00; x00; x02] ++ [x00; x00; x00; x02] ++ [x00; x00; x00; x01]
           ++ [x61; x62; x63; x64; x65]) [].

(** Three pages of sizes 4, 2 and 1 after a 20-byte header. *)
Definition three_pages_shrinking : slice :=
  mkSlice (list_byte_of_string "cook"
           ++ [x00; x00; x00; x03]
           ++ [x00; x00; x00; x04] ++ [x00; x00; x00; x02] ++ [x00; x00; x00; x01]
           ++ [x61; x62; x63; x64; x65; x66; x67]) [].

(** The magic followed by three bytes: a buffer of 7 bytes. *)
Definition cook_and_three_bytes : slice :=
  mkSlice (list_byte_of_string "cook" ++ [x00; x00; x00]) [].

(** A computation that does not end the process. *)
Definition no_exit {A : Type} (m : outcome A) : Prop := forall st, m <> Exit st.

(** A record of 64 bytes: flags 5, name "a" at 56, value "b" at 58,
    domain "c" at 60, path "//" at 62 without a terminating NUL, both
    timestamps 0.0. *)
Definition cookie_fixture : slice :=
  mkSlice ([x40; x00; x00; x00] ++ [x00; x00; x00; x00]
           ++ [x05; x00; x00; x00] ++ [x00; x00; x00; x00]
           ++ [x3c; x00; x00; x00] ++ [x38; x00; x00; x00]
           ++ [x3e; x00; x00; x00] ++ [x3a; x00; x00; x00]
           ++ repeat x00 24
           ++ [x61; x00; x62; x00; x63; x00; x2f; x2f]) [].

(** A record of 10 bytes with nothing after it. *)
Definition short_record : slice := mkSlice (repeat x00 10) [].

(** Name offset 0x41 = 65 in a record of 64 bytes. *)
Definition offset_beyond_record : slice :=
  mkSlice ([x40; x00; x00; x00] ++ [x00; x00; x00; x00]
           ++ [x05; x00; x00; x00] ++ [x00; x00; x00; x00]
           ++ [x3c; x00; x00; x00] ++ [x41; x00; x00; x00]
           ++ [x3e; x00; x00; x00] ++ [x3a; x00; x00; x00]
           ++ repeat x00 24
           ++ [x61; x00; x62; x00; x63; x00; x2f; x00]) [].

(** [decodeCookies] leaves a page as it was, its cookies decoded. *)
Definition decoded_page (p : page) : page :=
  mkPage (page_rawBytes p) (numCookiesInPage p) (cookieOffsets p)
         (map (fun c => decoded (rawBytes c)) (cookies p)).

(** A file of one page of 80 bytes that holds [cookie_fixture] at offset
    16, with the page, the cookie and the structure it decodes to. *)
Definition file_fixture : slice :=
  mkSlice (list_byte_of_string "cook"
           ++ [x00; x00; x00; x01] ++ [x00; x00; x00; x50]
           ++ [x00; x00; x01; x00] ++ [x01; x00; x00; x00]
           ++ [x10; x00; x00; x00] ++ [x00; x00; x00; x00]
           ++ elems cookie_fixture) [].

Definition file_fixture_page : slice :=
  mkSlice ([x00; x00; x01; x00] ++ [x01; x00; x00; x00]
           ++ [x10; x00; x00; x00] ++ [x00; x00; x00; x00]
           ++ elems cookie_fixture) [].

Definition file_fixture_cookie : cookie :=
  mkCookie cookie_fixture 64 [x61] [x62] [x63] [x2f; x2f] "Secure; HttpOnly"
           (Some 978307200%Z) (Some 978307200%Z).

Definition file_fixture_pages : pages :=
  mkPages [mkPage file_fixture_page 1 [16] [file_fixture_cookie]] 1 [80] 12.

(** ** The command line and [main] *)

(** The values of the flag variables once [flag.Parse] has run. *)
Record flagValues : Type := mkFlags {
  file : string;      (* -i *)
  version : bool;     (* -v *)
  debug : bool;       (* -d *)
  format : string     (* -f *)
}.

(** The five output functions of [main]; how each renders the cookies is
    not part of the model. *)
Inductive outputFunction : Type :=
| outputAsTable | outputAsList | outputAsJSON | outputAsCSV | outputAsXML.

(** What a run does that can be seen from outside: text written to the
    standard output or the standard error, and the call of an output
    function on the decoded cookies.  The [DEBUG] lines the decoding
    functions print under [-d] are left out. *)
Inductive event : Type :=
| Stdout (text : string)
| Stderr (text : string)
| Output (f : outputFunction) (allCookies : list cookie).

(** A computation with its trace. *)
Definition io (A : Type) : Type := (list event * outcome A)%type.

Definition io_bind {A B : Type} (m : io A) (k : A -> io B) : io B :=
  match m with
  | (ev, Ok a) => let '(ev', r) := k a in (ev ++ ev', r)
  | (ev, Panic) => (ev, Panic)
  | (ev, Exit st) => (ev, Exit st)
  end.

Definition lift {A : Type} (o : outcome A) : io A := ([], o).
Definition emit (e : event) : io unit := ([e], Ok tt).
Definition os_Exit {A : Type} (st : Z) : io A := ([], Exit st).

Notation "x <-- m ;; k" := (io_bind m (fun x => k))
  (at level 61, m at next level, right associativity).

Definition nl : string := String (ascii_of_nat 10) EmptyString.

(** [fmt.Println(s)]. *)
Definition Println (s : string) : io unit := emit (Stdout (s ++ nl)).

Definition usageText : string :=
  ("BinaryCookieExtractor (v1.0) - Safari/iOS/iPadOS Binary Cookie Decoder - @KittyNighthawk (2021)"
   ++ nl ++ nl
   ++ "Usage: $ ./binary-cookie-extractor -i <BINARY-COOKIE-FILE> [-f table|list|json|csv|xml] [-d]"
   ++ nl
   ++ "Example: $ ./binary-cookie-extractor -i Cookies.binarycookies"
   ++ nl ++ nl
   ++ "For help, enter: $ ./binary-cookie-extractor -h")%string.

Definition printUsageInstructions : io unit := Println usageText.

(** The test [*format != "table" && ... && *format != "xml"]. *)
Definition unknownFormat (f : string) : bool :=
  negb (String.eqb f "table") && negb (String.eqb f "list")
  && negb (String.eqb f "json") && negb (String.eqb f "csv")
  && negb (String.eqb f "xml").

(** How [flag.Parse] ends on the command line of a run.  The flag set of
    the [flag] package is [ExitOnError]: on [-h] or [-help] it writes its
    usage text on the standard error and ends the process with status 0,
    on an undefined or malformed flag it writes a message and the usage
    text and ends the process with status 2; otherwise it returns, the
    flag variables set. *)
Inductive flagParse : Type :=
| Parsed (fl : flagValues)
| HelpRequested (usage : string)
| BadCommandLine (message : string).

(** [flag.Parse()]. *)
Definition flag_Parse (p : flagParse) : io flagValues :=
  match p with
  | Parsed fl => lift (Ok fl)
  | HelpRequested usage => ([Stderr usage], Exit 0)
  | BadCommandLine message => ([Stderr message], Exit 2)
  end.

(** The statements of [parseComLineFlags] that follow [flag.Parse()]. *)
Definition parseComLineFlags_tests (fl : flagValues) : io unit :=
  _ <-- (if version fl then
           _ <-- Println "BinaryCookieExtractor (v1.0) - @KittyNighthawk (2021)" ;;
           os_Exit 1
         else lift (Ok tt)) ;;
  _ <-- (if String.eqb (file fl) "" then
           _ <-- Println "No parameters supplied!" ;;
           _ <-- printUsageInstructions ;;
           os_Exit 1
         else lift (Ok tt)) ;;
  if unknownFormat (format fl) then
    _ <-- (if debug fl then
             _ <-- emit (Stdout ("[DEBUG] *format does not equal table, list, json, csv, or xml" ++ nl)) ;;
             emit (Stdout ("[DEBUG] *format: " ++ format fl ++ nl))
           else lift (Ok tt)) ;;
    _ <-- printUsageInstructions ;;
    os_Exit 1
  else lift (Ok tt).

(** [parseComLineFlags]; the result is the flag variables as it leaves
    them. *)
Definition parseComLineFlags (p : flagParse) : io flagValues :=
  fl <-- flag_Parse p ;;
  _ <-- parseComLineFlags_tests fl ;;
  lift (Ok fl).

(** [handleError(err)]: [err] is the text of the error, [None] for [nil]. *)
Definition handleError (err : option string) : io unit :=
  match err with
  | Some text =>
      _ <-- emit (Stderr ("An error occured: " ++ text ++ nl)) ;;
      os_Exit 1
  | None => lift (Ok tt)
  end.

(** [checkFileMagicNumber] with the message it writes before it exits. *)
Definition checkFileMagicNumber_io (data : slice) : io unit :=
  match checkFileMagicNumber data with
  | Exit st =>
      ([Stderr ("File is not a valid iOS/Safari binary cookies file... exiting" ++ nl)],
       Exit st)
  | o => lift o
  end.

(** The [switch *format] that ends [main]. *)
Definition outputSwitch (f : string) (allCookies : list cookie) : io unit :=
  if String.eqb f "table" then emit (Output outputAsTable allCookies)
  else if String.eqb f "list" then emit (Output outputAsList allCookies)
  else if String.eqb f "json" then emit (Output outputAsJSON allCookies)
  else if String.eqb f "csv" then emit (Output outputAsCSV allCookies)
  else if String.eqb f "xml" then emit (Output outputAsXML allCookies)
  else emit (Stdout ("This should never run" ++ nl)).

(** [main]; [ReadFile] is [ioutil.ReadFile], which gives the contents of
    a file and an error. *)
Definition main (p : flagParse) (ReadFile : string -> slice * option string)
  : io unit :=
  fl <-- parseComLineFlags p ;;
  let '(data, err) := ReadFile (file fl) in
  _ <-- handleError err ;;
  _ <-- checkFileMagicNumber_io data ;;
  pgs <-- lift (extractPages data) ;;
  pgs' <-- lift (extractCookiesFromPages pgs) ;;
  r <-- lift (decodeCookies pgs' []) ;;
  outputSwitch (format fl) (snd r).

(** The line the default branch of the [switch] of [main] writes. *)
Definition neverRuns : event := Stdout ("This should never run" ++ nl).

(** The sum of the first [i] page sizes: where the cursor of
    [extractPages] stands when it reaches page [i]. *)
Definition cursor_at (sizes : list N) (i : nat) : N := sumN (firstn i sizes).

(** Offsets that never decrease. *)
Fixpoint nondecreasing (l : list N) : Prop :=
  match l with
  | [] => True
  | a :: rest =>
      match rest with
      | [] => True
      | b :: _ => a <= b
      end /\ nondecreasing rest
  end.

(** A valid combination of flags. *)
Definition flagsAccepted (fl : flagValues) : Prop :=
  version fl = false /\ file fl <> EmptyString /\
  In (format fl) ["table"; "list"; "json"; "csv"; "xml"]%string.

(** The output function of a format. *)
Definition outputFunction_of (f : string) : option outputFunction :=
  if String.eqb f "table" then Some outputAsTable
  else if String.eqb f "list" then Some outputAsList
  else if String.eqb f "json" then Some outputAsJSON
  else if String.eqb f "csv" then Some outputAsCSV
  else if String.eqb f "xml" then Some outputAsXML
  else None.

(** A record of 64 bytes with the flags byte [fl] and the one-letter
    texts [n] (name, at 56), [v] (value, at 58), [d] (domain, at 60) and
    [p] (path, at 62), both timestamps 0.0. *)
Definition record_bytes (fl n v d p : byte) : list byte :=
  [x40; x00; x00; x00] ++ [x00; x00; x00; x00]
  ++ [fl; x00; x00; x00] ++ [x00; x00; x00; x00]
  ++ [x3c; x00; x00; x00] ++ [x38; x00; x00; x00]
  ++ [x3e; x00; x00; x00] ++ [x3a; x00; x00; x00]
  ++ repeat x00 24
  ++ [n; x00; v; x00; d; x00; p; x00].

(** Two records that differ in their flags only: 2 and 255. *)
Definition record_flags_2 : slice := mkSlice (record_bytes x02 x61 x62 x63 x2f) [].
Definition record_flags_255 : slice := mkSlice (record_bytes xff x61 x62 x63 x2f) [].

(** A page of 148 bytes with two records, at offsets 20 and 84. *)
Definition two_record_page : slice :=
  mkSlice ([x00; x00; x01; x00] ++ [x02; x00; x00; x00]
           ++ [x14; x00; x00; x00] ++ [x54; x00; x00; x00]
           ++ [x00; x00; x00; x00]
           ++ record_bytes x01 x61 x62 x63 x2f
           ++ record_bytes x04 x64 x65 x66 x2f) [].

(** A page of 80 bytes with one record, at offset 16. *)
Definition one_record_page : list byte :=
  [x00; x00; x01; x00] ++ [x01; x00; x00; x00]
  ++ [x10; x00; x00; x00] ++ [x00; x00; x00; x00]
  ++ record_bytes x05 x67 x68 x69 x2f.

(** A file of two pages: [two_record_page], then [one_record_page]. *)
Definition two_page_file : slice :=
  mkSlice (list_byte_of_string "cook"
           ++ [x00; x00; x00; x02] ++ [x00; x00; x00; x94] ++ [x00; x00; x00; x50]
           ++ elems two_record_page ++ one_record_page) [].

(** The message [checkFileMagicNumber] writes before it exits. *)
Definition invalidFileMessage : string :=
  ("File is not a valid iOS/Safari binary cookies file... exiting" ++ nl)%string.

(** * Properties *)

(** ** The outcome monad and slice expressions *)

Lemma bind_Ok_inv {A B : Type} (m : outcome A) (k : A -> outcome B) (b : B) :
  (x <- m ;; k x) = Ok b -> exists a, m = Ok a /\ k a = Ok b.
Proof.
  destruct m as [a| |st]; simpl; intros H; try discriminate.
  exists a; split; [reflexivity | exact H].
Qed.

Ltac bind_inv H :=
  let a := fresh "v" in
  let Ha := fresh "Hv" in
  apply bind_Ok_inv in H; destruct H as (a & Ha & H).

Tactic Notation "bind_inv_as" hyp(H) ident(a) ident(Ha) :=
  apply bind_Ok_inv in H; destruct H as (a & Ha & H).

Lemma length_backing (s : slice) :
  length (backing s) = (length (elems s) + length (spare s))%nat.
Proof. unfold backing; apply length_app. Qed.

Lemma len_le_cap (s : slice) : len s <= cap s.
Proof. unfold len, cap; rewrite length_backing; lia. Qed.

Lemma slice_lh_Ok (s : slice) (lo hi : N) :
  lo <= hi -> hi <= cap s ->
  slice_lh s lo hi =
    Ok (mkSlice (bytes_at (backing s) (N.to_nat lo) (N.to_nat (hi - lo)))
                (skipn (N.to_nat hi) (backing s))).
Proof.
  intros Hlo Hhi; unfold slice_lh.
  apply N.leb_le in Hlo; apply N.leb_le in Hhi.
  rewrite Hlo, Hhi; reflexivity.
Qed.

Lemma slice_lh_Panic (s : slice) (lo hi : N) :
  hi < lo \/ cap s < hi -> slice_lh s lo hi = Panic.
Proof.
  intros H; unfold slice_lh.
  destruct (lo <=? hi) eqn:E1; [|reflexivity].
  destruct (hi <=? cap s) eqn:E2; [|reflexivity].
  apply N.leb_le in E1; apply N.leb_le in E2; lia.
Qed.

Lemma slice_lh_inv (s r : slice) (lo hi : N) :
  slice_lh s lo hi = Ok r ->
  lo <= hi /\ hi <= cap s /\
  elems r = bytes_at (backing s) (N.to_nat lo) (N.to_nat (hi - lo)) /\
  spare r = skipn (N.to_nat hi) (backing s).
Proof.
  unfold slice_lh.
  destruct (lo <=? hi) eqn:E1; [|discriminate].
  destruct (hi <=? cap s) eqn:E2; [|discriminate].
  simpl; intros H; injection H as <-.
  apply N.leb_le in E1; apply N.leb_le in E2; auto.
Qed.

Lemma slice_l_Ok (s : slice) (lo : N) :
  lo <= len s ->
  slice_l s lo = Ok (mkSlice (skipn (N.to_nat lo) (elems s)) (spare s)).
Proof.
  intros H; unfold slice_l; apply N.leb_le in H; rewrite H; reflexivity.
Qed.

Lemma slice_l_Panic (s : slice) (lo : N) :
  len s < lo -> slice_l s lo = Panic.
Proof.
  intros H; unfold slice_l.
  destruct (lo <=? len s) eqn:E; [apply N.leb_le in E; lia | reflexivity].
Qed.

Lemma slice_l_inv (s r : slice) (lo : N) :
  slice_l s lo = Ok r ->
  lo <= len s /\ r = mkSlice (skipn (N.to_nat lo) (elems s)) (spare s).
Proof.
  unfold slice_l.
  destruct (lo <=? len s) eqn:E; [|discriminate].
  intros H; injection H as <-; apply N.leb_le in E; auto.
Qed.

Lemma length_bytes_at (l : list byte) (lo n : nat) :
  (lo + n <= length l)%nat -> length (bytes_at l lo n) = n.
Proof.
  intros H; unfold bytes_at.
  rewrite length_firstn, length_skipn; lia.
Qed.

(** A slice of the visible part of [s] reads the visible bytes only. *)
Lemma bytes_at_backing (s : slice) (lo n : nat) :
  (lo + n <= length (elems s))%nat ->
  bytes_at (backing s) lo n = bytes_at (elems s) lo n.
Proof.
  intros H; unfold bytes_at, backing.
  rewrite skipn_app, firstn_app.
  replace (n - length (skipn lo (elems s)))%nat with 0%nat
    by (rewrite length_skipn; lia).
  simpl; apply app_nil_r.
Qed.

(** ** reverseByteSlice *)

Lemma firstn_succ_nth (l : list byte) (k : nat) :
  (k < length l)%nat -> firstn (S k) l = firstn k l ++ [nth k l x00].
Proof.
  revert k; induction l as [|a l IH]; intros k Hk; simpl in Hk; [lia|].
  destruct k as [|k]; [reflexivity|].
  rewrite firstn_cons; simpl nth.
  rewrite IH by lia; reflexivity.
Qed.

Lemma reverseByteSlice_loop_spec (data : list byte) (k : nat) (result : list byte) :
  (k <= length data)%nat ->
  reverseByteSlice_loop data k result = result ++ rev (firstn k data).
Proof.
  revert result; induction k as [|k IH]; intros result Hk;
    cbn [reverseByteSlice_loop].
  - simpl; symmetry; apply app_nil_r.
  - rewrite IH by lia.
    rewrite firstn_succ_nth by lia.
    rewrite rev_app_distr; simpl.
    rewrite <- app_assoc; reflexivity.
Qed.

Lemma reverseByteSlice_rev (data : list byte) : reverseByteSlice data = rev data.
Proof.
  unfold reverseByteSlice.
  rewrite reverseByteSlice_loop_spec by lia.
  rewrite firstn_all; reflexivity.
Qed.

(** C10: [reverseByteSlice] preserves the length of its argument, and
    applying it twice gives the argument back. *)
Theorem reverseByteSlice_involutive (s : list byte) :
  length (reverseByteSlice s) = length s /\
  reverseByteSlice (reverseByteSlice s) = s.
Proof.
  rewrite !reverseByteSlice_rev; split.
  - apply length_rev.
  - apply rev_involutive.
Qed.

(** ** hex.EncodeToString followed by strconv.ParseUint *)

Lemma digit_of_hextable (k : nat) :
  (k < 16)%nat -> digit_of (nth k hextable "0"%char) = Some (N.of_nat k).
Proof.
  intros Hk.
  do 16 (destruct k as [|k]; [reflexivity|]).
  lia.
Qed.

Lemma wrap64_small (n : N) : n < 2 ^ 64 -> wrap64 n = n.
Proof. intros H; unfold wrap64; apply N.mod_small; exact H. Qed.

Lemma ParseUint_loop_digit (c : ascii) (rest : string) (n d : N) :
  digit_of c = Some d -> d < 16 -> n < 2 ^ 60 ->
  ParseUint_loop (String c rest) 16 (maxUint64 / 16 + 1) (2 ^ 64 - 1) n =
  ParseUint_loop rest 16 (maxUint64 / 16 + 1) (2 ^ 64 - 1) (n * 16 + d).
Proof.
  intros Hc Hd Hn.
  cbn [ParseUint_loop]; rewrite Hc.
  change (maxUint64 / 16 + 1) with (2 ^ 60).
  assert (E60 : 2 ^ 60 = 1152921504606846976) by reflexivity.
  assert (E64 : 2 ^ 64 = 18446744073709551616) by reflexivity.
  rewrite E60, E64 in *.
  replace (16 <=? d) with false by (symmetry; apply N.leb_gt; lia).
  replace (1152921504606846976 <=? n) with false
    by (symmetry; apply N.leb_gt; lia).
  cbv zeta.
  rewrite (wrap64_small (n * 16)) by (rewrite E64; lia).
  rewrite (wrap64_small (n * 16 + d)) by (rewrite E64; lia).
  replace (n * 16 + d <? n * 16) with false by (symmetry; apply N.ltb_ge; lia).
  replace (18446744073709551616 - 1 <? n * 16 + d) with false
    by (symmetry; apply N.ltb_ge; lia).
  reflexivity.
Qed.

Lemma byte_nibbles (b : byte) :
  Byte.to_N b / 16 < 16 /\ Byte.to_N b mod 16 < 16 /\
  Byte.to_N b = Byte.to_N b / 16 * 16 + Byte.to_N b mod 16.
Proof.
  pose proof (Byte.to_N_bounded b) as Hb.
  repeat split.
  - apply N.Div0.div_lt_upper_bound; lia.
  - apply N.mod_lt; lia.
  - rewrite N.mul_comm; apply N.div_mod; lia.
Qed.

Lemma ParseUint_loop_byte (b : byte) (rest : list byte) (n : N) :
  n < 2 ^ 56 ->
  ParseUint_loop (EncodeToString (b :: rest)) 16 (maxUint64 / 16 + 1) (2 ^ 64 - 1) n =
  ParseUint_loop (EncodeToString rest) 16 (maxUint64 / 16 + 1) (2 ^ 64 - 1)
    (n * 256 + Byte.to_N b).
Proof.
  intros Hn.
  destruct (byte_nibbles b) as (Hhi & Hlo & Hb).
  assert (E56 : 2 ^ 56 = 72057594037927936) by reflexivity.
  assert (E60 : 2 ^ 60 = 1152921504606846976) by reflexivity.
  cbn [EncodeToString].
  rewrite (ParseUint_loop_digit _ _ n (Byte.to_N b / 16)).
  - rewrite (ParseUint_loop_digit _ _ _ (Byte.to_N b mod 16)).
    + f_equal; lia.
    + rewrite digit_of_hextable by lia. f_equal; lia.
    + exact Hlo.
    + rewrite E60; rewrite E56 in Hn; lia.
  - rewrite digit_of_hextable by lia. f_equal; lia.
  - exact Hhi.
  - rewrite E60; rewrite E56 in Hn; lia.
Qed.

Lemma fold_be_ge (bs : list byte) (n : N) :
  n <= fold_left (fun acc b => acc * 256 + Byte.to_N b) bs n.
Proof.
  revert n; induction bs as [|b bs IH]; intros n; simpl; [lia|].
  specialize (IH (n * 256 + Byte.to_N b)); lia.
Qed.

Lemma ParseUint_loop_hex (bs : list byte) (n : N) :
  fold_left (fun acc b => acc * 256 + Byte.to_N b) bs n < 2 ^ 64 ->
  ParseUint_loop (EncodeToString bs) 16 (maxUint64 / 16 + 1) (2 ^ 64 - 1) n =
  (fold_left (fun acc b => acc * 256 + Byte.to_N b) bs n, None).
Proof.
  revert n; induction bs as [|b bs IH]; intros n Hn.
  - reflexivity.
  - rewrite ParseUint_loop_byte.
    + apply IH; exact Hn.
    + cbn [fold_left] in Hn.
      pose proof (fold_be_ge bs (n * 256 + Byte.to_N b)) as Hge.
      assert (E56 : 2 ^ 56 = 72057594037927936) by reflexivity.
      assert (E64 : 2 ^ 64 = 18446744073709551616) by reflexivity.
      rewrite E56; rewrite E64 in Hn; lia.
Qed.

Lemma uint_be_bound (bs : list byte) : uint_be bs < 256 ^ N.of_nat (length bs).
Proof.
  unfold uint_be.
  assert (G : forall l n k, n < 256 ^ k ->
             fold_left (fun acc b => acc * 256 + Byte.to_N b) l n
             < 256 ^ (k + N.of_nat (length l))).
  { induction l as [|b l IH]; intros n k Hn.
    - simpl; rewrite N.add_0_r; exact Hn.
    - cbn [fold_left length].
      replace (k + N.of_nat (S (length l))) with (N.succ k + N.of_nat (length l))
        by lia.
      apply IH. rewrite N.pow_succ_r'.
      pose proof (Byte.to_N_bounded b); lia. }
  apply (G bs 0 0); simpl; lia.
Qed.

Lemma uint_be_lt_2_64 (bs : list byte) :
  (length bs <= 8)%nat -> uint_be bs < 2 ^ 64.
Proof.
  intros H.
  apply N.lt_le_trans with (1 := uint_be_bound bs).
  change (2 ^ 64) with (256 ^ 8).
  apply N.pow_le_mono_r; lia.
Qed.

(** [convertHexToUint] of at most 8 bytes reads them as a big-endian
    number. *)
Lemma convertHexToUint_be (bs : list byte) :
  (length bs <= 8)%nat -> convertHexToUint bs = uint_be bs.
Proof.
  intros H; unfold convertHexToUint, ParseUint.
  destruct bs as [|b bs]; [reflexivity|].
  cbn [EncodeToString].
  match goal with
  | |- fst (ParseUint_loop ?s _ _ _ _) = _ =>
      change s with (EncodeToString (b :: bs))
  end.
  rewrite ParseUint_loop_hex; [reflexivity|].
  apply (uint_be_lt_2_64 (b :: bs)); exact H.
Qed.

Lemma uint_be_app (xs : list byte) (b : byte) :
  uint_be (xs ++ [b]) = uint_be xs * 256 + Byte.to_N b.
Proof. unfold uint_be; rewrite fold_left_app; reflexivity. Qed.

Lemma uint_be_rev (bs : list byte) : uint_be (rev bs) = uint_le bs.
Proof.
  induction bs as [|b bs IH]; [reflexivity|].
  cbn [rev uint_le]; rewrite uint_be_app, IH; lia.
Qed.

(** [convertHexToUint(reverseByteSlice(bs))] reads at most 8 bytes as a
    little-endian number. *)
Lemma convertHexToUint_reverse_le (bs : list byte) :
  (length bs <= 8)%nat ->
  convertHexToUint (reverseByteSlice bs) = uint_le bs.
Proof.
  intros H.
  rewrite reverseByteSlice_rev, convertHexToUint_be by (rewrite length_rev; exact H).
  apply uint_be_rev.
Qed.

(** ** The cookie count of a page *)

(** C1: the cookie count is not read with the base-16 routine of the other
    fields.  On a page whose count field holds the little-endian value 10
    (bytes [0a 00 00 00]) the program parses the digits "0000000a" in base
    10, gets a syntax error and a count of 0, and extracts no cookie; on
    the field [10 00 00 00], of value 16, it reads 10. *)
Theorem cookie_count_parsed_in_base_10 :
  uint_le (bytes_at (elems page_count_0a) 4 4) = 10 /\
  parseNumCookies page_count_0a = Ok 0 /\
  extractCookiesFromPage (newPage page_count_0a)
    = Ok (mkPage page_count_0a 0 [] []) /\
  uint_le (bytes_at page_count_10 4 4) = 16 /\
  parseNumCookies (mkSlice page_count_10 []) = Ok 10 /\
  readField (mkSlice page_count_10 []) 4 8 = Ok 16.
Proof. repeat split; vm_compute; reflexivity. Qed.

(** ** The header *)

Lemma parseSizeOfPages_loop_spec (data : slice) (count : nat) (start : N) :
  start + 4 * N.of_nat count <= cap data ->
  parseSizeOfPages_loop data count start (start + 4) =
  Ok (map (fun i => uint_be (bytes_at (backing data) (N.to_nat start + 4 * i) 4))
          (seq 0 count)).
Proof.
  revert start; induction count as [|count IH]; intros start H.
  - reflexivity.
  - cbn [parseSizeOfPages_loop].
    rewrite slice_lh_Ok by lia.
    cbn [bind elems].
    rewrite IH by lia.
    cbn [bind seq map].
    rewrite <- seq_shift, map_map.
    do 2 f_equal.
    + rewrite convertHexToUint_be.
      * do 2 f_equal; lia.
      * unfold bytes_at; rewrite length_firstn; lia.
    + apply map_ext; intros i; do 2 f_equal; lia.
Qed.

Lemma uint_be_4_bound (bs : list byte) :
  (length bs <= 4)%nat -> uint_be bs < 2 ^ 32.
Proof.
  intros H.
  apply N.lt_le_trans with (1 := uint_be_bound bs).
  change (2 ^ 32) with (256 ^ 4).
  apply N.pow_le_mono_r; lia.
Qed.

Lemma length_bytes_at_le (l : list byte) (lo n : nat) :
  (length (bytes_at l lo n) <= n)%nat.
Proof. unfold bytes_at; rewrite length_firstn; lia. Qed.

Lemma int_of_uint64_small (x : N) : x < 2 ^ 63 -> int_of_uint64 x = Z.of_N x.
Proof.
  intros H; unfold int_of_uint64.
  apply N.ltb_lt in H; rewrite H; reflexivity.
Qed.

(** The header fields in terms of the backing array of the buffer. *)
Lemma extractPages_header_cap (data : slice) :
  let n := uint_be (bytes_at (backing data) 4 4) in
  8 + 4 * n <= cap data ->
  extractPages_header data =
    Ok (n,
        map (fun i => uint_be (bytes_at (backing data) (8 + 4 * i) 4))
            (seq 0 (N.to_nat n)),
        8 + 4 * n).
Proof.
  intros n H; unfold extractPages_header.
  assert (Hn : n < 2 ^ 32) by (apply uint_be_4_bound, length_bytes_at_le).
  assert (E32 : 2 ^ 32 = 4294967296) by reflexivity.
  assert (E63 : 2 ^ 63 = 9223372036854775808) by reflexivity.
  assert (E64 : 2 ^ 64 = 18446744073709551616) by reflexivity.
  rewrite slice_lh_Ok by lia.
  cbn [bind elems].
  change (N.to_nat 4) with 4%nat; change (N.to_nat (8 - 4)) with 4%nat.
  rewrite convertHexToUint_be
    by (eapply Nat.le_trans; [apply length_bytes_at_le | lia]).
  fold n.
  unfold parseSizeOfPages.
  rewrite int_of_uint64_small by (rewrite E63; lia).
  rewrite <- Z_N_nat, N2Z.id.
  change 12 with (8 + 4).
  rewrite parseSizeOfPages_loop_spec by lia.
  cbn [bind].
  change (N.to_nat 8) with 8%nat.
  rewrite (wrap64_small (n * 4)) by (rewrite E64; lia).
  rewrite wrap64_small by (rewrite E64; lia).
  do 2 f_equal; lia.
Qed.

(** C7: when the header fits in the buffer, [extractPages] reads the page
    count as the big-endian value of bytes [4,8), without reversing them,
    then that many big-endian 32-bit page sizes from offset 8 onwards, and
    sets the header size to 8 + 4 * pageCount. *)
Theorem extractPages_header_fields (data : slice) :
  let n := uint_be (bytes_at (elems data) 4 4) in
  let sizes := map (fun i => uint_be (bytes_at (elems data) (8 + 4 * i) 4))
                   (seq 0 (N.to_nat n)) in
  8 + 4 * n <= len data ->
  extractPages_header data = Ok (n, sizes, 8 + 4 * n) /\
  forall pgs, extractPages data = Ok pgs ->
    numPages pgs = n /\ pageSizes pgs = sizes /\ headerSize pgs = 8 + 4 * n.
Proof.
  intros n sizes H.
  assert (Hn : n = uint_be (bytes_at (backing data) 4 4)).
  { unfold n; rewrite bytes_at_backing; [reflexivity|]. unfold len in H; lia. }
  assert (Hhdr : extractPages_header data = Ok (n, sizes, 8 + 4 * n)).
  { pose proof (extractPages_header_cap data) as Hc.
    cbv zeta in Hc. rewrite <- Hn in Hc.
    rewrite Hc by (pose proof (len_le_cap data); lia).
    do 3 f_equal. unfold sizes.
    apply map_ext_in; intros i Hi.
    apply in_seq in Hi.
    rewrite bytes_at_backing; [reflexivity|]. unfold len in H; lia. }
  split; [exact Hhdr|].
  intros pgs Hp; unfold extractPages in Hp.
  rewrite Hhdr in Hp; cbn [bind] in Hp.
  bind_inv Hp. injection Hp as <-. cbn; auto.
Qed.

Lemma extractPages_header_fields_witness :
  8 + 4 * uint_be (bytes_at (elems header_fixture) 4 4) <= len header_fixture /\
  extractPages_header header_fixture = Ok (2, [3; 256], 16).
Proof.
  split.
  - vm_compute; discriminate.
  - apply (extractPages_header_fields header_fixture).
    vm_compute; discriminate.
Defined.

(** ** The page spans *)

(** C2: the span of a page that is neither the first nor the last does not
    end at cursor + size.  With sizes 2, 2, 1 the second page should be
    bytes [22,24), that is "cd"; [extractPages] slices [data[22:22]], the
    upper bound being headerSize + size without the cursor, and the page
    is empty.  With sizes 4, 2, 1 the same expression is [data[24:22]] and
    the program panics. *)
Theorem extractPages_inner_page_span :
  (exists pgs,
     extractPages three_pages = Ok pgs /\
     headerSize pgs = 20 /\ pageSizes pgs = [2; 2; 1] /\
     map (fun p => elems (page_rawBytes p)) (pages_pages pgs)
       = [[x61; x62]; []; [x65]]) /\
  bytes_at (elems three_pages) (20 + 2) 2 = [x63; x64] /\
  extractPages three_pages_shrinking = Panic.
Proof.
  split; [|split]; [| reflexivity | vm_compute; reflexivity].
  eexists; split; [vm_compute; reflexivity|].
  cbn; repeat split; reflexivity.
Qed.

(** ** The magic number *)

Lemma bytes_eqb_eq (a b : list byte) : bytes_eqb a b = true <-> a = b.
Proof.
  revert b; induction a as [|x a IH]; intros [|y b]; simpl;
    try (split; [discriminate | discriminate]); [tauto|].
  rewrite andb_true_iff, IH; split.
  - intros [Hx ->]; apply Byte.byte_dec_bl in Hx; subst; reflexivity.
  - intros H; injection H as -> ->; split; [apply Byte.byte_dec_lb|]; reflexivity.
Qed.

Lemma checkFileMagicNumber_spec (data : slice) :
  4 <= cap data ->
  checkFileMagicNumber data =
    if bytes_eqb (firstn 4 (backing data)) magic then Ok tt else Exit 1.
Proof.
  intros H; unfold checkFileMagicNumber, slice_h.
  rewrite slice_lh_Ok by lia.
  cbn [bind elems]; unfold bytes_at.
  change (N.to_nat 0) with 0%nat; change (N.to_nat (4 - 0)) with 4%nat.
  rewrite skipn_0.
  destruct (bytes_eqb (firstn 4 (backing data)) magic); reflexivity.
Qed.

(** C6, as stated, fails: a 7-byte buffer that starts with the magic is
    shorter than 8 bytes, and [checkFileMagicNumber] lets it through. *)
Lemma checkFileMagicNumber_short_buffer_accepted :
  len cook_and_three_bytes < 8 /\
  checkFileMagicNumber cook_and_three_bytes = Ok tt /\
  ~ (checkFileMagicNumber cook_and_three_bytes = Exit 1 <->
     (firstn 4 (elems cook_and_three_bytes) <> magic \/
      len cook_and_three_bytes < 8)).
Proof.
  split; [reflexivity|]. split; [reflexivity|].
  intros [_ H].
  assert (E : checkFileMagicNumber cook_and_three_bytes = Exit 1)
    by (apply H; right; reflexivity).
  discriminate E.
Qed.

(** On a buffer of at least 4 bytes the outcome of the check depends on
    the first 4 bytes only. *)
Lemma checkFileMagicNumber_magic_only (data : slice) :
  4 <= len data ->
  (checkFileMagicNumber data = Exit 1 <-> firstn 4 (elems data) <> magic) /\
  (checkFileMagicNumber data = Ok tt <-> firstn 4 (elems data) = magic) /\
  checkFileMagicNumber data <> Panic.
Proof.
  intros H.
  rewrite checkFileMagicNumber_spec by (pose proof (len_le_cap data); lia).
  assert (E : firstn 4 (backing data) = firstn 4 (elems data)).
  { unfold backing; rewrite firstn_app.
    replace (4 - length (elems data))%nat with 0%nat by (unfold len in H; lia).
    simpl; apply app_nil_r. }
  rewrite E.
  destruct (bytes_eqb (firstn 4 (elems data)) magic) eqn:Hm.
  - apply bytes_eqb_eq in Hm.
    repeat split; try discriminate; try tauto.
  - assert (Hne : firstn 4 (elems data) <> magic).
    { intros Heq; apply bytes_eqb_eq in Heq; congruence. }
    repeat split; try discriminate; try tauto.
Qed.

(** C6, amended: on a buffer of at least 4 bytes [checkFileMagicNumber]
    rejects the buffer exactly when its first 4 bytes differ from "cook":
    it then writes one message on the standard error, nothing else, and
    ends the process with status 1; otherwise it returns without writing
    anything, whatever the length of the buffer; it does not panic
    there. *)
Theorem checkFileMagicNumber_rejects_bad_magic (data : slice) :
  4 <= len data ->
  (firstn 4 (elems data) <> magic <->
     checkFileMagicNumber_io data = ([Stderr invalidFileMessage], Exit 1)) /\
  (firstn 4 (elems data) = magic <->
     checkFileMagicNumber_io data = ([], Ok tt)) /\
  (checkFileMagicNumber data = Exit 1 <-> firstn 4 (elems data) <> magic) /\
  (checkFileMagicNumber data = Ok tt <-> firstn 4 (elems data) = magic) /\
  snd (checkFileMagicNumber_io data) <> Panic.
Proof.
  intros H.
  destruct (checkFileMagicNumber_magic_only data H) as (Hexit & Hok & Hpanic).
  unfold checkFileMagicNumber_io.
  destruct (checkFileMagicNumber data) as [[]| |st] eqn:E; cbn [lift snd].
  - assert (Hm : firstn 4 (elems data) = magic) by (apply Hok; reflexivity).
    repeat split; auto; try discriminate; intros Hx; contradiction.
  - exfalso; apply Hpanic; reflexivity.
  - assert (Hst : st = 1%Z).
    { destruct (bytes_eqb (firstn 4 (backing data)) magic) eqn:Hb;
        rewrite checkFileMagicNumber_spec in E
          by (pose proof (len_le_cap data); lia);
        rewrite Hb in E; [discriminate E | injection E as <-; reflexivity]. }
    subst st.
    assert (Hne : firstn 4 (elems data) <> magic) by (apply Hexit; reflexivity).
    repeat split; auto; try discriminate; intros Hx; contradiction.
Qed.

Lemma checkFileMagicNumber_rejects_bad_magic_witness :
  4 <= len three_pages_shrinking /\
  checkFileMagicNumber_io three_pages_shrinking = ([], Ok tt) /\
  4 <= len short_record /\
  checkFileMagicNumber_io short_record = ([Stderr invalidFileMessage], Exit 1).
Proof.
  split; [vm_compute; discriminate|].
  split.
  - apply (checkFileMagicNumber_rejects_bad_magic three_pages_shrinking);
      [vm_compute; discriminate | reflexivity].
  - split; [vm_compute; discriminate|].
    apply (checkFileMagicNumber_rejects_bad_magic short_record);
      [vm_compute; discriminate | vm_compute; discriminate].
Defined.

(** ** scanUntilNullByte *)

Lemma scanUntilNullByte_loop_acc (data result : list byte) :
  scanUntilNullByte_loop data result = result ++ scanUntilNullByte_loop data [].
Proof.
  revert result; induction data as [|b data IH]; intros result; simpl.
  - symmetry; apply app_nil_r.
  - destruct (Byte.eqb b x00).
    + symmetry; apply app_nil_r.
    + rewrite (IH (result ++ [b])), (IH [b]), <- app_assoc; reflexivity.
Qed.

Lemma scanUntilNullByte_cons (b : byte) (data : list byte) :
  scanUntilNullByte (b :: data) =
  if Byte.eqb b x00 then [] else b :: scanUntilNullByte data.
Proof.
  unfold scanUntilNullByte; simpl.
  destruct (Byte.eqb b x00); [reflexivity|].
  rewrite scanUntilNullByte_loop_acc; reflexivity.
Qed.

(** The scan stops at the first NUL or at the end of its argument. *)
Lemma scanUntilNullByte_spec (data : list byte) :
  exists rest,
    data = scanUntilNullByte data ++ rest /\
    Forall (fun b => b <> x00) (scanUntilNullByte data) /\
    (rest = [] \/ exists rest', rest = x00 :: rest').
Proof.
  induction data as [|b data (rest & Hd & Hnz & Hrest)].
  - exists []; repeat split; [constructor | left; reflexivity].
  - rewrite scanUntilNullByte_cons.
    destruct (Byte.eqb b x00) eqn:Hb.
    + apply Byte.byte_dec_bl in Hb; subst b.
      exists (x00 :: data); repeat split; [constructor | right; eauto].
    + exists rest; repeat split.
      * simpl; f_equal; exact Hd.
      * constructor; [apply Byte.eqb_false; exact Hb | exact Hnz].
      * exact Hrest.
Qed.

Lemma text_at_is_text_field (raw : slice) (off : N) :
  is_text_field (elems raw) (N.to_nat off) (text_at raw off).
Proof. unfold is_text_field, text_at; apply scanUntilNullByte_spec. Qed.

(** The text lies within the record: it is a segment of its bytes. *)
Lemma text_at_within_record (raw : slice) (off : N) :
  exists rest,
    elems raw = firstn (N.to_nat off) (elems raw) ++ text_at raw off ++ rest.
Proof.
  destruct (text_at_is_text_field raw off) as (rest & H & _).
  exists rest; rewrite <- H; symmetry; apply firstn_skipn.
Qed.

(** ** Decoding one record *)

Lemma readField_Ok (raw : slice) (lo : nat) (hi : N) :
  hi = N.of_nat lo + 4 -> hi <= cap raw ->
  readField raw (N.of_nat lo) hi = Ok (field_le (backing raw) lo).
Proof.
  intros -> H; unfold readField.
  rewrite slice_lh_Ok by lia; cbn [bind elems].
  rewrite convertHexToUint_reverse_le
    by (eapply Nat.le_trans; [apply length_bytes_at_le | lia]).
  unfold field_le; do 3 f_equal; lia.
Qed.

Lemma readField_inv (raw : slice) (lo : nat) (hi v : N) :
  hi = N.of_nat lo + 4 ->
  readField raw (N.of_nat lo) hi = Ok v ->
  hi <= cap raw /\ v = field_le (backing raw) lo.
Proof.
  intros Hhi H.
  assert (Hc : hi <= cap raw).
  { unfold readField in H; bind_inv H.
    apply slice_lh_inv in Hv; tauto. }
  split; [exact Hc|].
  rewrite (readField_Ok raw lo hi Hhi Hc) in H; congruence.
Qed.

Lemma readText_Ok (raw : slice) (off : N) :
  off <= len raw -> readText raw off = Ok (text_at raw off).
Proof.
  intros H; unfold readText; rewrite slice_l_Ok by exact H; reflexivity.
Qed.

Lemma readText_inv (raw : slice) (off : N) (txt : list byte) :
  readText raw off = Ok txt -> off <= len raw /\ txt = text_at raw off.
Proof.
  intros H.
  assert (Hc : off <= len raw).
  { unfold readText in H; bind_inv H. apply slice_l_inv in Hv; tauto. }
  split; [exact Hc|].
  rewrite (readText_Ok raw off Hc) in H; congruence.
Qed.

Lemma uint64_of_int_of_uint64 (v : N) :
  v < 2 ^ 64 -> uint64_of_int (int_of_uint64 v) = v.
Proof.
  intros H; unfold uint64_of_int, int_of_uint64.
  assert (E63 : 2 ^ 63 = 9223372036854775808) by reflexivity.
  assert (E64 : 2 ^ 64 = 18446744073709551616) by reflexivity.
  assert (Z64 : (2 ^ 64 = 18446744073709551616)%Z) by reflexivity.
  rewrite E64 in H; rewrite Z64.
  destruct (v <? 2 ^ 63) eqn:E.
  - rewrite E63 in E; apply N.ltb_lt in E.
    rewrite Z.mod_small by lia. apply N2Z.id.
  - rewrite E63 in E; apply N.ltb_ge in E.
    replace (Z.of_N v - 18446744073709551616)%Z
      with (Z.of_N v + (-1) * 18446744073709551616)%Z by lia.
    rewrite Z.mod_add by lia.
    rewrite Z.mod_small by lia. apply N2Z.id.
Qed.

Lemma field_le_bound (bs : list byte) (lo : nat) : field_le bs lo < 2 ^ 32.
Proof.
  unfold field_le; rewrite <- uint_be_rev.
  apply uint_be_4_bound; rewrite length_rev; apply length_bytes_at_le.
Qed.

(** A decodable record is decoded to [decoded]; the element left in place
    and the value appended to the result are the same. *)
Lemma decodeCookie_decodable (ck : cookie) :
  decodable (rawBytes ck) ->
  decodeCookie ck = Ok (decoded (rawBytes ck), decoded (rawBytes ck)).
Proof.
  unfold decodable, nameOffset_of, valueOffset_of, domainOffset_of,
    pathOffset_of, decoded, text_at.
  intros H; destruct H as (Hcap & Hn & Hv & Hd & Hp).
  unfold decodeCookie, slice_h.
  set (raw := rawBytes ck) in *.
  assert (E32 : 2 ^ 32 = 4294967296) by reflexivity.
  assert (E63 : 2 ^ 63 = 9223372036854775808) by reflexivity.
  assert (E64 : 2 ^ 64 = 18446744073709551616) by reflexivity.
  rewrite slice_lh_Ok by lia; cbn [bind elems].
  replace (readField raw 8 12) with (Ok (field_le (backing raw) 8))
    by (symmetry; apply (readField_Ok raw 8 12); [reflexivity | lia]);
    cbn [bind].
  replace (readField raw 16 20) with (Ok (field_le (backing raw) 16))
    by (symmetry; apply (readField_Ok raw 16 20); [reflexivity | lia]);
    cbn [bind].
  replace (readField raw 20 24) with (Ok (field_le (backing raw) 20))
    by (symmetry; apply (readField_Ok raw 20 24); [reflexivity | lia]);
    cbn [bind].
  replace (readField raw 24 28) with (Ok (field_le (backing raw) 24))
    by (symmetry; apply (readField_Ok raw 24 28); [reflexivity | lia]);
    cbn [bind].
  replace (readField raw 28 32) with (Ok (field_le (backing raw) 28))
    by (symmetry; apply (readField_Ok raw 28 32); [reflexivity | lia]);
    cbn [bind].
  rewrite (readText_Ok raw (field_le (backing raw) 20)) by exact Hn; cbn [bind].
  rewrite (readText_Ok raw (field_le (backing raw) 28)) by exact Hv; cbn [bind].
  rewrite (readText_Ok raw (field_le (backing raw) 16)) by exact Hd; cbn [bind].
  rewrite (readText_Ok raw (field_le (backing raw) 24)) by exact Hp; cbn [bind].
  rewrite (slice_lh_Ok raw 40 48) by lia; cbn [bind elems].
  rewrite (slice_lh_Ok raw 48 56) by lia; cbn [bind elems].
  rewrite convertHexToUint_reverse_le
    by (eapply Nat.le_trans; [apply length_bytes_at_le | simpl; lia]).
  pose proof (field_le_bound (backing raw) 0) as H0.
  pose proof (field_le_bound (backing raw) 8) as H8.
  change (bytes_at (backing raw) (N.to_nat 0) (N.to_nat (4 - 0)))
    with (bytes_at (backing raw) 0 4).
  fold (field_le (backing raw) 0).
  rewrite uint64_of_int_of_uint64 by (rewrite E64; rewrite E32 in H0; lia).
  rewrite (int_of_uint64_small (field_le (backing raw) 8))
    by (rewrite E63; rewrite E32 in H8; lia).
  reflexivity.
Qed.

Lemma decodeCookie_Ok_inv (ck : cookie) (r : cookie * cookie) :
  decodeCookie ck = Ok r -> decodable (rawBytes ck).
Proof.
  unfold decodeCookie; intros H.
  set (raw := rawBytes ck) in *.
  bind_inv_as H a Ha.
  bind_inv_as H fl Hfl.
  bind_inv_as H dOff Hd. apply (readField_inv raw 16 20) in Hd; [|reflexivity].
  bind_inv_as H nOff Hn. apply (readField_inv raw 20 24) in Hn; [|reflexivity].
  bind_inv_as H pOff Hp. apply (readField_inv raw 24 28) in Hp; [|reflexivity].
  bind_inv_as H vOff Hv. apply (readField_inv raw 28 32) in Hv; [|reflexivity].
  bind_inv_as H name Hname. apply readText_inv in Hname.
  bind_inv_as H value Hvalue. apply readText_inv in Hvalue.
  bind_inv_as H domain Hdomain. apply readText_inv in Hdomain.
  bind_inv_as H path Hpath. apply readText_inv in Hpath.
  bind_inv_as H eRaw HeRaw.
  bind_inv_as H lRaw HlRaw. apply slice_lh_inv in HlRaw.
  destruct Hd as [_ ->], Hn as [_ ->], Hp as [_ ->], Hv as [_ ->].
  unfold decodable, nameOffset_of, valueOffset_of, domainOffset_of, pathOffset_of.
  tauto.
Qed.

Lemma no_exit_bind {A B : Type} (m : outcome A) (k : A -> outcome B) :
  no_exit m -> (forall a, no_exit (k a)) -> no_exit (x <- m ;; k x).
Proof.
  intros Hm Hk st; destruct m as [a| |st']; simpl.
  - apply Hk.
  - discriminate.
  - exfalso; apply (Hm st'); reflexivity.
Qed.

Lemma no_exit_Ok {A : Type} (a : A) : no_exit (Ok a).
Proof. intros st; discriminate. Qed.

Lemma no_exit_slice_lh (s : slice) (lo hi : N) : no_exit (slice_lh s lo hi).
Proof.
  intros st; unfold slice_lh.
  destruct ((lo <=? hi) && (hi <=? cap s)); discriminate.
Qed.

Lemma no_exit_slice_l (s : slice) (lo : N) : no_exit (slice_l s lo).
Proof. intros st; unfold slice_l; destruct (lo <=? len s); discriminate. Qed.

Lemma no_exit_readField (s : slice) (lo hi : N) : no_exit (readField s lo hi).
Proof.
  apply no_exit_bind; [apply no_exit_slice_lh | intros; apply no_exit_Ok].
Qed.

Lemma no_exit_readText (s : slice) (off : N) : no_exit (readText s off).
Proof.
  apply no_exit_bind; [apply no_exit_slice_l | intros; apply no_exit_Ok].
Qed.

Lemma no_exit_decodeCookie (ck : cookie) : no_exit (decodeCookie ck).
Proof.
  unfold decodeCookie, slice_h.
  repeat (apply no_exit_bind;
          [first [apply no_exit_slice_lh | apply no_exit_readField
                 | apply no_exit_readText] | intros ?]).
  apply no_exit_Ok.
Qed.

Lemma cookie_fixture_decodable : decodable cookie_fixture.
Proof. repeat split; vm_compute; discriminate. Qed.

(** C3: for a record that [decodeCookies] can decode, each of the four
    text fields is exactly the bytes of the record from the field's offset
    up to, and without, the first NUL byte, or up to the end of the record
    when there is none: the scan is over [rawBytes[offset:]], whose length
    is that of the record, so no byte beyond the record is read. *)
Theorem text_fields_bounded_by_record (ck : cookie) :
  let raw := rawBytes ck in
  decodable raw ->
  exists c,
    decodeCookie ck = Ok (c, c) /\
    is_text_field (elems raw) (N.to_nat (nameOffset_of raw)) (Name c) /\
    is_text_field (elems raw) (N.to_nat (valueOffset_of raw)) (Value c) /\
    is_text_field (elems raw) (N.to_nat (domainOffset_of raw)) (Domain c) /\
    is_text_field (elems raw) (N.to_nat (pathOffset_of raw)) (Path c).
Proof.
  intros raw H.
  exists (decoded raw); split; [apply decodeCookie_decodable; exact H|].
  cbn [decoded Name Value Domain Path].
  repeat split; apply text_at_is_text_field.
Qed.

(** The name ends at its NUL; the path, which has none, ends with the
    record. *)
Lemma text_fields_bounded_by_record_witness :
  decodable cookie_fixture /\
  exists c,
    decodeCookie (newCookie cookie_fixture) = Ok (c, c) /\
    is_text_field (elems cookie_fixture) 56 (Name c) /\
    is_text_field (elems cookie_fixture) 58 (Value c) /\
    is_text_field (elems cookie_fixture) 60 (Domain c) /\
    is_text_field (elems cookie_fixture) 62 (Path c).
Proof.
  split; [exact cookie_fixture_decodable|].
  exact (text_fields_bounded_by_record (newCookie cookie_fixture)
           cookie_fixture_decodable).
Defined.

Example cookie_fixture_texts :
  exists c,
    decodeCookie (newCookie cookie_fixture) = Ok (c, c) /\
    Name c = [x61] /\ Value c = [x62] /\ Domain c = [x63] /\
    Path c = [x2f; x2f].
Proof. eexists; split; [vm_compute; reflexivity|]; cbn; auto. Qed.

(** ** The flags *)

Lemma flagText_flag_name (v : N) : flagText (Z.of_N v) = flag_name v.
Proof.
  destruct v as [|p]; [reflexivity|].
  destruct p as [p|p|]; try reflexivity;
    destruct p as [p|p|]; try reflexivity;
    destruct p as [p|p|]; reflexivity.
Qed.

(** C5, as stated, fails: two records that differ in their flags only,
    2 and 255, decode to cookies that agree in every decoded field, the
    text "Unknown" included; the number is in none of them. *)
Lemma flags_raw_value_not_kept :
  field_le (backing record_flags_2) 8 = 2 /\
  field_le (backing record_flags_255) 8 = 255 /\
  exists c2 c255,
    decodeCookie (newCookie record_flags_2) = Ok (c2, c2) /\
    decodeCookie (newCookie record_flags_255) = Ok (c255, c255) /\
    Flags c2 = "Unknown"%string /\ Flags c255 = "Unknown"%string /\
    Size c2 = Size c255 /\ Name c2 = Name c255 /\ Value c2 = Value c255 /\
    Domain c2 = Domain c255 /\ Path c2 = Path c255 /\
    Expires c2 = Expires c255 /\ LastAccessed c2 = LastAccessed c255.
Proof.
  split; [reflexivity|]. split; [reflexivity|].
  eexists; eexists.
  split; [vm_compute; reflexivity|].
  split; [vm_compute; reflexivity|].
  cbn; repeat split; reflexivity.
Qed.

(** C5, amended: for a record that [decodeCookies] can decode, the
    little-endian value of bytes [8,12) is mapped 0 to "None", 1 to
    "Secure", 4 to "HttpOnly", 5 to "Secure; HttpOnly" and every other
    value to the one text "Unknown"; the cookie keeps the bytes of the
    record unchanged in [rawBytes]. *)
Theorem flags_text_mapping (ck : cookie) :
  let raw := rawBytes ck in
  let v := field_le (backing raw) 8 in
  decodable raw ->
  exists c,
    decodeCookie ck = Ok (c, c) /\
    Flags c = flag_name v /\
    (v = 0 -> Flags c = "None"%string) /\
    (v = 1 -> Flags c = "Secure"%string) /\
    (v = 4 -> Flags c = "HttpOnly"%string) /\
    (v = 5 -> Flags c = "Secure; HttpOnly"%string) /\
    (v <> 0 -> v <> 1 -> v <> 4 -> v <> 5 -> Flags c = "Unknown"%string) /\
    rawBytes c = raw.
Proof.
  intros raw v H.
  exists (decoded raw); split; [apply decodeCookie_decodable; exact H|].
  cbn [decoded Flags rawBytes]; fold v.
  rewrite flagText_flag_name.
  repeat split; try (intros ->; reflexivity).
  intros H0 H1 H4 H5; unfold flag_name.
  apply N.eqb_neq in H0, H1, H4, H5.
  rewrite H0, H1, H4, H5; reflexivity.
Qed.

Lemma flags_text_mapping_witness :
  decodable cookie_fixture /\
  (exists c,
     decodeCookie (newCookie cookie_fixture) = Ok (c, c) /\
     Flags c = "Secure; HttpOnly"%string) /\
  decodable record_flags_255 /\
  (exists c,
     decodeCookie (newCookie record_flags_255) = Ok (c, c) /\
     Flags c = "Unknown"%string).
Proof.
  assert (Hd : decodable record_flags_255)
    by (repeat split; vm_compute; discriminate).
  split; [exact cookie_fixture_decodable|].
  split.
  - destruct (flags_text_mapping (newCookie cookie_fixture)
                cookie_fixture_decodable) as (c & Hc & Hf & _).
    exists c; split; [exact Hc | exact Hf].
  - split; [exact Hd|].
    destruct (flags_text_mapping (newCookie record_flags_255) Hd)
      as (c & Hc & Hf & _).
    exists c; split; [exact Hc | exact Hf].
Defined.

(** ** Malformed records *)

(** C8, as stated, fails: a record of 10 bytes, and a record with a name
    offset beyond its end, make [decodeCookies] panic; no error value is
    returned. *)
Lemma decodeCookie_panics_on_malformed_record :
  decodeCookie (newCookie short_record) = Panic /\
  decodeCookie (newCookie offset_beyond_record) = Panic /\
  decodeCookies (mkPages [mkPage nil_slice 1 [0] [newCookie short_record]] 1 [10] 12) []
    = Panic.
Proof. repeat split; vm_compute; reflexivity. Qed.

(** C8, amended: decoding a record returns no typed error.  It completes
    exactly when the record is decodable (the 56 bytes of fixed fields lie
    within its capacity and no text offset exceeds its length; an offset
    equal to the length gives an empty text) and ends in a run-time panic
    in every other case; it never ends the process through [os.Exit]. *)
Theorem decodeCookie_outcome (ck : cookie) :
  (decodeCookie ck = Ok (decoded (rawBytes ck), decoded (rawBytes ck))
     <-> decodable (rawBytes ck)) /\
  (decodeCookie ck = Panic <-> ~ decodable (rawBytes ck)) /\
  (forall st, decodeCookie ck <> Exit st).
Proof.
  split; [|split].
  - split; [apply decodeCookie_Ok_inv | apply decodeCookie_decodable].
  - split.
    + intros Hp Hd; rewrite (decodeCookie_decodable ck Hd) in Hp; discriminate.
    + intros Hn; destruct (decodeCookie ck) as [r| |st] eqn:E.
      * exfalso; apply Hn; exact (decodeCookie_Ok_inv ck r E).
      * reflexivity.
      * exfalso; exact (no_exit_decodeCookie ck st E).
  - apply no_exit_decodeCookie.
Qed.

(** ** The timestamps *)

(** [float64_trunc] rounds towards zero: a finite double of magnitude
    [m * 2^e] is sent to the integer of the same sign whose magnitude is
    the largest integer not above it. *)
Lemma float64_trunc_towards_zero (s : bool) (m : positive) (e : Z) :
  exists mag,
    float64_trunc (S754_finite s m e) = Some (if s then - mag else mag)%Z /\
    (0 <= mag)%Z /\
    ((0 <= e)%Z -> mag = (Zpos m * 2 ^ e)%Z) /\
    ((e < 0)%Z -> (mag * 2 ^ (- e) <= Zpos m < (mag + 1) * 2 ^ (- e))%Z).
Proof.
  unfold float64_trunc.
  destruct (0 <=? e)%Z eqn:He.
  - apply Z.leb_le in He.
    exists (Zpos m * 2 ^ e)%Z; repeat split; lia.
  - apply Z.leb_gt in He.
    assert (Hp : (0 < 2 ^ (- e))%Z) by (apply Z.pow_pos_nonneg; lia).
    exists (Zpos m / 2 ^ (- e))%Z; repeat split; try lia.
    + apply Z.div_pos; lia.
    + rewrite Z.mul_comm; apply Z.mul_div_le; exact Hp.
    + rewrite Z.mul_comm.
      pose proof (Z.mul_succ_div_gt (Zpos m) (2 ^ (- e)) Hp); lia.
Qed.

Lemma wrap_int64_small (z : Z) :
  (- 2 ^ 63 <= z < 2 ^ 63)%Z -> wrap_int64 z = z.
Proof.
  intros H; unfold wrap_int64.
  assert (E63 : (2 ^ 63 = 9223372036854775808)%Z) by reflexivity.
  assert (E64 : (2 ^ 64 = 18446744073709551616)%Z) by reflexivity.
  rewrite E63, E64 in *.
  rewrite Z.mod_small by lia; lia.
Qed.

(** The 64-bit pattern the function converts is the little-endian value
    of its 8 bytes. *)
Lemma convertHexToCoreDataTime_bits (bytes : list byte) :
  length bytes = 8%nat ->
  convertHexToCoreDataTime bytes =
  wrap_int64 (int64_of_float64 (Float64frombits (uint_le bytes)) + 978307200).
Proof.
  intros H; unfold convertHexToCoreDataTime.
  change (fst (ParseUint (EncodeToString (reverseByteSlice bytes)) 16 64))
    with (convertHexToUint (reverseByteSlice bytes)).
  rewrite convertHexToUint_reverse_le by lia.
  reflexivity.
Qed.

(** C4: the result of [convertHexToCoreDataTime] is determined by its 8
    bytes alone: they are read as a little-endian 64-bit pattern, the
    pattern as an IEEE-754 double, the double is truncated to the integer
    [t], and the instant returned is [t + 978307200] in Unix seconds; the
    8 bytes of the double 0.0 give 978307200. *)
Theorem convertHexToCoreDataTime_spec (bytes : list byte) (t : Z) :
  length bytes = 8%nat ->
  float64_trunc (Float64frombits (uint_le bytes)) = Some t ->
  (- 2 ^ 63 <= t < 2 ^ 63 - 978307200)%Z ->
  convertHexToCoreDataTime bytes = (t + 978307200)%Z /\
  convertHexToCoreDataTime (repeat x00 8) = 978307200%Z.
Proof.
  intros Hlen Ht Hr; split; [|vm_compute; reflexivity].
  rewrite convertHexToCoreDataTime_bits by exact Hlen.
  unfold int64_of_float64; rewrite Ht.
  assert (E63 : (2 ^ 63 = 9223372036854775808)%Z) by reflexivity.
  replace ((- 2 ^ 63 <=? t) && (t <? 2 ^ 63))%Z with true.
  - apply wrap_int64_small; rewrite E63 in *; lia.
  - symmetry; apply andb_true_iff; split;
      [apply Z.leb_le | apply Z.ltb_lt]; rewrite E63 in *; lia.
Qed.

(** The double 1.5, bytes [00 00 00 00 00 00 f8 3f], is one second after
    the reference instant. *)
Lemma convertHexToCoreDataTime_spec_witness :
  convertHexToCoreDataTime [x00; x00; x00; x00; x00; x00; xf8; x3f]
    = (1 + 978307200)%Z.
Proof.
  apply (convertHexToCoreDataTime_spec
           [x00; x00; x00; x00; x00; x00; xf8; x3f] 1).
  - reflexivity.
  - vm_compute; reflexivity.
  - vm_compute; split; [discriminate | reflexivity].
Defined.

Example convertHexToCoreDataTime_negative :
  Float64frombits (uint_le [x00; x00; x00; x00; x00; x00; xf8; xbf])
    = S754_finite true 6755399441055744 (-52) /\
  convertHexToCoreDataTime [x00; x00; x00; x00; x00; x00; xf8; xbf]
    = (978307200 - 1)%Z.
Proof. split; vm_compute; reflexivity. Qed.

(** ** The cookies of a page *)

Lemma pow10_pos (k : N) : 0 < 10 ^ k.
Proof. apply N.neq_0_lt_0, N.pow_nonzero; discriminate. Qed.

(** Parsing at most 19 decimal digits neither overflows nor reaches
    10^19. *)
Lemma ParseUint_loop_10_bound (s : string) (n k : N) :
  n < 10 ^ k -> k + N.of_nat (String.length s) <= 19 ->
  fst (ParseUint_loop s 10 (maxUint64 / 10 + 1) (2 ^ 64 - 1) n)
    < 10 ^ (k + N.of_nat (String.length s)).
Proof.
  revert n k; induction s as [|c s IH]; intros n k Hn Hk.
  - simpl; rewrite N.add_0_r; exact Hn.
  - cbn [ParseUint_loop String.length] in *.
    destruct (digit_of c) as [d|]; [|apply pow10_pos].
    destruct (10 <=? d) eqn:Hd; [apply pow10_pos|].
    apply N.leb_gt in Hd.
    assert (Hk18 : 10 ^ k <= 10 ^ 18) by (apply N.pow_le_mono_r; lia).
    assert (Hk1 : 10 ^ (k + 1) = 10 * 10 ^ k)
      by (rewrite N.add_1_r; apply N.pow_succ_r').
    assert (E18 : 10 ^ 18 = 1000000000000000000) by reflexivity.
    assert (E64 : 2 ^ 64 = 18446744073709551616) by reflexivity.
    change (maxUint64 / 10 + 1) with 1844674407370955162.
    rewrite E18 in Hk18.
    replace (1844674407370955162 <=? n) with false
      by (symmetry; apply N.leb_gt; lia).
    cbv zeta.
    rewrite (wrap64_small (n * 10)) by (rewrite E64; lia).
    rewrite (wrap64_small (n * 10 + d)) by (rewrite E64; lia).
    replace (n * 10 + d <? n * 10) with false by (symmetry; apply N.ltb_ge; lia).
    replace (2 ^ 64 - 1 <? n * 10 + d) with false
      by (symmetry; apply N.ltb_ge; rewrite E64; lia).
    cbn [orb].
    replace (k + N.of_nat (S (String.length s)))
      with (k + 1 + N.of_nat (String.length s)) by lia.
    apply IH; lia.
Qed.

Lemma length_EncodeToString (bs : list byte) :
  String.length (EncodeToString bs) = (2 * length bs)%nat.
Proof.
  induction bs as [|b bs IH]; [reflexivity|].
  cbn [EncodeToString String.length length]; rewrite IH; lia.
Qed.

(** The cookie count read from a page is below 10^8. *)
Lemma parseNumCookies_bound (raw : slice) (a : N) :
  parseNumCookies raw = Ok a -> a < 10 ^ 8.
Proof.
  unfold parseNumCookies; intros H.
  bind_inv_as H s Hs; injection H as <-.
  apply slice_lh_inv in Hs; destruct Hs as (_ & Hc & He & _).
  assert (Hl : length (elems s) = 4%nat).
  { rewrite He; apply length_bytes_at.
    unfold cap in Hc; lia. }
  unfold ParseUint.
  destruct (EncodeToString (reverseByteSlice (elems s))) eqn:E;
    [apply pow10_pos|].
  rewrite <- E.
  pose proof (ParseUint_loop_10_bound
                (EncodeToString (reverseByteSlice (elems s))) 0 0) as Hb.
  rewrite length_EncodeToString, reverseByteSlice_rev, length_rev, Hl in Hb.
  rewrite reverseByteSlice_rev.
  change (10 ^ 8) with (10 ^ (0 + N.of_nat (2 * 4))).
  apply Hb; simpl; lia.
Qed.

Lemma readField_Ok_N (raw : slice) (lo : N) :
  lo + 4 <= cap raw ->
  readField raw lo (lo + 4) = Ok (field_le (backing raw) (N.to_nat lo)).
Proof.
  intros H.
  pose proof (readField_Ok raw (N.to_nat lo) (lo + 4)) as E.
  rewrite N2Nat.id in E; apply E; [reflexivity | exact H].
Qed.

Lemma readField_inv_N (raw : slice) (lo v : N) :
  readField raw lo (lo + 4) = Ok v ->
  lo + 4 <= cap raw /\ v = field_le (backing raw) (N.to_nat lo).
Proof.
  intros H.
  pose proof (readField_inv raw (N.to_nat lo) (lo + 4) v) as E.
  rewrite N2Nat.id in E; apply E; [reflexivity | exact H].
Qed.

Lemma cookieOffsets_loop_inv (raw : slice) (count : nat) (start : N)
    (offs : list N) :
  cookieOffsets_loop raw count start (start + 4) = Ok offs ->
  offs = map (fun i => field_le (backing raw) (N.to_nat start + 4 * i))
             (seq 0 count).
Proof.
  revert start offs; induction count as [|count IH]; intros start offs H.
  - injection H as <-; reflexivity.
  - cbn [cookieOffsets_loop] in H.
    bind_inv_as H v Hv; bind_inv_as H rest Hrest; injection H as <-.
    apply readField_inv_N in Hv; destruct Hv as [_ ->].
    apply IH in Hrest; subst rest.
    cbn [seq map]; rewrite <- seq_shift, map_map.
    f_equal; [f_equal; lia|].
    apply map_ext; intros i; f_equal; lia.
Qed.

Lemma offset_table_bound (raw : slice) (n : N) :
  Forall (fun off => off < 2 ^ 32) (offset_table raw n).
Proof.
  unfold offset_table; apply Forall_forall; intros off Hin.
  apply in_map_iff in Hin; destruct Hin as (i & <- & _).
  apply field_le_bound.
Qed.

Lemma int_of_uint64_offset (off : N) :
  off < 2 ^ 32 ->
  (int_of_uint64 off <? 0)%Z = false /\ Z.to_N (int_of_uint64 off) = off.
Proof.
  intros H.
  assert (E32 : 2 ^ 32 = 4294967296) by reflexivity.
  assert (E63 : 2 ^ 63 = 9223372036854775808) by reflexivity.
  rewrite int_of_uint64_small by (rewrite E63; rewrite E32 in H; lia).
  split; [apply Z.ltb_ge; lia | apply N2Z.id].
Qed.

Lemma cookies_loop_inv (raw : slice) (offs : list N) (cs : list cookie) :
  Forall (fun off => off < 2 ^ 32) offs ->
  cookies_loop raw offs = Ok cs ->
  map (fun c => elems (rawBytes c)) cs = record_spans raw offs /\
  length cs = length offs.
Proof.
  revert cs; induction offs as [|off rest IH]; intros cs Hb H.
  - injection H as <-; split; reflexivity.
  - inversion Hb as [|? ? Hoff Hrest]; subst.
    destruct (int_of_uint64_offset off Hoff) as [Hneg Hid].
    cbn [cookies_loop] in H.
    destruct rest as [|next rest'].
    + bind_inv_as H r Hr; injection H as <-.
      unfold slice_l_int in Hr; rewrite Hneg, Hid in Hr.
      apply slice_l_inv in Hr; destruct Hr as [_ ->].
      split; reflexivity.
    + bind_inv_as H r Hr; bind_inv_as H cs' Hcs; injection H as <-.
      inversion Hrest as [|? ? Hnext _]; subst.
      destruct (int_of_uint64_offset next Hnext) as [Hneg' Hid'].
      unfold slice_lh_int in Hr; rewrite Hneg, Hneg', Hid, Hid' in Hr.
      cbn [orb] in Hr.
      apply slice_lh_inv in Hr; destruct Hr as (_ & _ & He & _).
      destruct (IH cs' Hrest Hcs) as [IH1 IH2].
      split.
      * cbn [map record_spans rawBytes newCookie].
        rewrite He; f_equal; exact IH1.
      * cbn [length]; rewrite IH2; reflexivity.
Qed.

(** On a page fresh from [extractPages] the body of the page loop reads
    the count, then that many offsets, then one record per offset. *)
Lemma extractCookiesFromPage_inv (p p' : page) :
  cookieOffsets p = [] -> cookies p = [] ->
  extractCookiesFromPage p = Ok p' ->
  page_rawBytes p' = page_rawBytes p /\ page_extracted p'.
Proof.
  intros Ho Hc H; unfold extractCookiesFromPage in H.
  rewrite Ho, Hc in H; cbn [app] in H.
  bind_inv_as H a Ha; bind_inv_as H offs Hoffs; bind_inv_as H cs Hcs.
  injection H as <-.
  pose proof (parseNumCookies_bound _ _ Ha) as Hbound.
  assert (E8 : 10 ^ 8 = 100000000) by reflexivity.
  assert (E63 : 2 ^ 63 = 9223372036854775808) by reflexivity.
  rewrite int_of_uint64_small in Hoffs by (rewrite E63; rewrite E8 in Hbound; lia).
  rewrite <- Z_N_nat, N2Z.id in Hoffs.
  change 12 with (8 + 4) in Hoffs.
  apply cookieOffsets_loop_inv in Hoffs.
  change (N.to_nat 8) with 8%nat in Hoffs.
  fold (offset_table (page_rawBytes p) a) in Hoffs; subst offs.
  destruct (cookies_loop_inv _ _ _ (offset_table_bound _ _) Hcs) as [Hspans Hlen].
  split; [reflexivity|].
  unfold page_extracted;
    cbn [page_rawBytes numCookiesInPage cookieOffsets cookies].
  repeat split; try assumption.
  rewrite Hlen; unfold offset_table; rewrite length_map, length_seq.
  apply N2Nat.id.
Qed.

(** ** The whole decode: count and order of the cookies *)

Lemma extractPages_loop_fresh (data : slice) (h : N) (sizes : list N) (c : N)
    (ps : list page) :
  extractPages_loop data h sizes c = Ok ps ->
  Forall (fun p => cookieOffsets p = [] /\ cookies p = []) ps.
Proof.
  revert c ps; induction sizes as [|size_i rest IH]; intros c ps H.
  - injection H as <-; constructor.
  - cbn [extractPages_loop] in H; destruct rest as [|size_j rest'].
    + bind_inv_as H raw Hraw; injection H as <-.
      constructor; [split; reflexivity | constructor].
    + bind_inv_as H raw Hraw; bind_inv_as H ps' Hps; injection H as <-.
      constructor; [split; reflexivity | exact (IH _ _ Hps)].
Qed.

Lemma extractCookiesFromPages_loop_inv (ps ps' : list page) :
  Forall (fun p => cookieOffsets p = [] /\ cookies p = []) ps ->
  extractCookiesFromPages_loop ps = Ok ps' ->
  map page_rawBytes ps' = map page_rawBytes ps /\ Forall page_extracted ps'.
Proof.
  revert ps'; induction ps as [|p ps IH]; intros ps' Hf H.
  - injection H as <-; split; [reflexivity | constructor].
  - cbn [extractCookiesFromPages_loop] in H.
    bind_inv_as H p' Hp; bind_inv_as H rest' Hrest; injection H as <-.
    inversion Hf as [|? ? [Ho Hc] Hf']; subst.
    destruct (extractCookiesFromPage_inv p p' Ho Hc Hp) as [Hraw Hext].
    destruct (IH rest' Hf' Hrest) as [IH1 IH2].
    split; [cbn [map]; rewrite Hraw, IH1; reflexivity | constructor; assumption].
Qed.

Lemma decodeCookies_page_inv (cs cs' allCookies allCookies' : list cookie) :
  decodeCookies_page cs allCookies = Ok (cs', allCookies') ->
  cs' = map (fun c => decoded (rawBytes c)) cs /\
  allCookies' = allCookies ++ cs'.
Proof.
  revert cs' allCookies allCookies';
    induction cs as [|ck cs IH]; intros cs' allCookies allCookies' H.
  - injection H as <- <-; split; [reflexivity | symmetry; apply app_nil_r].
  - cbn [decodeCookies_page] in H.
    bind_inv_as H r Hr.
    rewrite (decodeCookie_decodable ck (decodeCookie_Ok_inv ck r Hr)) in Hr.
    injection Hr as <-.
    bind_inv_as H r' Hr'; destruct r' as [rest' all1].
    injection H as <- <-.
    destruct (IH _ _ _ Hr') as [-> ->].
    split; [reflexivity | rewrite <- app_assoc; reflexivity].
Qed.

Lemma decodeCookies_loop_inv (ps ps' : list page)
    (allCookies allCookies' : list cookie) :
  decodeCookies_loop ps allCookies = Ok (ps', allCookies') ->
  ps' = map decoded_page ps /\
  allCookies' = allCookies ++ concat (map cookies ps').
Proof.
  revert ps' allCookies allCookies';
    induction ps as [|p ps IH]; intros ps' allCookies allCookies' H.
  - injection H as <- <-; split; [reflexivity | symmetry; apply app_nil_r].
  - cbn [decodeCookies_loop] in H.
    bind_inv_as H r Hr; destruct r as [cs all1].
    bind_inv_as H r' Hr'; destruct r' as [rest' all2].
    injection H as <- <-.
    apply decodeCookies_page_inv in Hr; destruct Hr as [-> ->].
    destruct (IH _ _ _ Hr') as [-> ->].
    split; [reflexivity|].
    cbn [map concat cookies]; rewrite <- app_assoc; reflexivity.
Qed.

Lemma decoded_page_extracted (p : page) :
  page_extracted p -> page_extracted (decoded_page p).
Proof.
  unfold page_extracted, decoded_page;
    cbn [page_rawBytes numCookiesInPage cookieOffsets cookies].
  intros (Hn & Ho & Hs & Hl); repeat split; try assumption.
  - rewrite map_map; exact Hs.
  - rewrite length_map; exact Hl.
Qed.

Lemma length_concat_cookies (ps : list page) :
  Forall page_extracted ps ->
  N.of_nat (length (concat (map cookies ps))) = sumN (map numCookiesInPage ps).
Proof.
  induction 1 as [|p ps Hp _ IH]; [reflexivity|].
  cbn [map concat sumN fold_right]; rewrite length_app.
  destruct Hp as (_ & _ & _ & Hl).
  fold (sumN (map numCookiesInPage ps)); lia.
Qed.

(** C9: when the decode of a file completes, the cookies produced are
    those of the pages, page after page in the order of [extractPages],
    and within a page one per entry of its offset table, in the order of
    the table; their number is the sum over the pages of the cookie count
    parsed from the page. *)
Theorem decodeFile_count_and_order (data : slice) (pgs : pages)
    (allCookies : list cookie) :
  decodeFile data = Ok (pgs, allCookies) ->
  N.of_nat (length allCookies) = sumN (map numCookiesInPage (pages_pages pgs)) /\
  allCookies = concat (map cookies (pages_pages pgs)) /\
  (exists pgs0,
     extractPages data = Ok pgs0 /\
     map page_rawBytes (pages_pages pgs) = map page_rawBytes (pages_pages pgs0)) /\
  Forall page_extracted (pages_pages pgs).
Proof.
  intros H; unfold decodeFile in H.
  bind_inv_as H u Hu; bind_inv_as H pgs0 H0; bind_inv_as H pgs1 H1.
  unfold decodeCookies in H; bind_inv_as H r Hr; destruct r as [ps all1].
  injection H as <- <-; cbn [pages_pages].
  unfold extractCookiesFromPages in H1; bind_inv_as H1 ps1 Hps1.
  injection H1 as <-; cbn [pages_pages] in Hr.
  assert (Hfresh : Forall (fun p => cookieOffsets p = [] /\ cookies p = [])
                     (pages_pages pgs0)).
  { unfold extractPages in H0; bind_inv_as H0 hdr Hhdr.
    destruct hdr as [[n sizes] h]; bind_inv_as H0 ps0 Hps0.
    injection H0 as <-; cbn [pages_pages].
    exact (extractPages_loop_fresh _ _ _ _ _ Hps0). }
  destruct (extractCookiesFromPages_loop_inv _ _ Hfresh Hps1) as [Hraw Hext].
  apply decodeCookies_loop_inv in Hr; destruct Hr as [-> ->].
  assert (Hext' : Forall page_extracted (map decoded_page ps1)).
  { apply Forall_forall; intros p Hin.
    apply in_map_iff in Hin; destruct Hin as (q & <- & Hq).
    apply decoded_page_extracted.
    rewrite Forall_forall in Hext; exact (Hext q Hq). }
  cbn [app].
  repeat split.
  - apply length_concat_cookies; exact Hext'.
  - exists pgs0; split; [exact H0|].
    rewrite map_map; cbn [decoded_page page_rawBytes]; exact Hraw.
  - exact Hext'.
Qed.

Lemma file_fixture_decodes :
  decodeFile file_fixture = Ok (file_fixture_pages, [file_fixture_cookie]).
Proof. vm_compute; reflexivity. Qed.

(** Two pages, of two records and of one: three cookies, in the order of
    the pages and of the offset table of the first page. *)
Lemma decodeFile_count_and_order_witness :
  exists pgs allCookies,
    decodeFile two_page_file = Ok (pgs, allCookies) /\
    map numCookiesInPage (pages_pages pgs) = [2; 1] /\
    map Name allCookies = [[x61]; [x64]; [x67]] /\
    N.of_nat (length allCookies)
      = sumN (map numCookiesInPage (pages_pages pgs)) /\
    allCookies = concat (map cookies (pages_pages pgs)).
Proof.
  eexists; eexists.
  split; [vm_compute; reflexivity|].
  split; [reflexivity|]. split; [reflexivity|].
  split.
  - eapply (decodeFile_count_and_order two_page_file); vm_compute; reflexivity.
  - eapply (decodeFile_count_and_order two_page_file); vm_compute; reflexivity.
Defined.

(** * Further properties of the program *)

(** ** convertHexToUint on any number of bytes *)

Lemma ParseUint_loop_digit_range (c : ascii) (rest : string) (n d : N) :
  digit_of c = Some d -> d < 16 -> 2 ^ 60 <= n ->
  ParseUint_loop (String c rest) 16 (maxUint64 / 16 + 1) (2 ^ 64 - 1) n =
  (2 ^ 64 - 1, Some ErrRange).
Proof.
  intros Hc Hd Hn.
  cbn [ParseUint_loop]; rewrite Hc.
  change (maxUint64 / 16 + 1) with (2 ^ 60).
  replace (16 <=? d) with false by (symmetry; apply N.leb_gt; lia).
  replace (2 ^ 60 <=? n) with true by (symmetry; apply N.leb_le; exact Hn).
  reflexivity.
Qed.

Lemma ParseUint_loop_hex_saturates (bs : list byte) (n : N) :
  n < 2 ^ 64 ->
  ParseUint_loop (EncodeToString bs) 16 (maxUint64 / 16 + 1) (2 ^ 64 - 1) n =
  let v := fold_left (fun acc b => acc * 256 + Byte.to_N b) bs n in
  if v <? 2 ^ 64 then (v, None) else (2 ^ 64 - 1, Some ErrRange).
Proof.
  assert (E60 : 2 ^ 60 = 1152921504606846976) by reflexivity.
  assert (E64 : 2 ^ 64 = 18446744073709551616) by reflexivity.
  revert n; induction bs as [|b bs IH]; intros n Hn; cbv zeta.
  - cbn [EncodeToString ParseUint_loop fold_left].
    apply N.ltb_lt in Hn; rewrite Hn; reflexivity.
  - destruct (byte_nibbles b) as (Hhi & Hlo & Hb).
    pose proof (fold_be_ge bs (n * 256 + Byte.to_N b)) as Hge.
    cbn [fold_left].
    assert (Hdhi : digit_of (nth (N.to_nat (Byte.to_N b / 16)) hextable "0"%char)
                   = Some (Byte.to_N b / 16))
      by (rewrite digit_of_hextable by lia; f_equal; lia).
    assert (Hdlo : digit_of (nth (N.to_nat (Byte.to_N b mod 16)) hextable "0"%char)
                   = Some (Byte.to_N b mod 16))
      by (rewrite digit_of_hextable by lia; f_equal; lia).
    cbn [EncodeToString].
    destruct (N.lt_ge_cases n (2 ^ 60)) as [Hs|Hl].
    + rewrite (ParseUint_loop_digit _ _ n _ Hdhi Hhi Hs).
      destruct (N.lt_ge_cases (n * 16 + Byte.to_N b / 16) (2 ^ 60)) as [Hs'|Hl'].
      * rewrite (ParseUint_loop_digit _ _ _ _ Hdlo Hlo Hs').
        replace ((n * 16 + Byte.to_N b / 16) * 16 + Byte.to_N b mod 16)
          with (n * 256 + Byte.to_N b) by lia.
        apply IH. rewrite E60 in Hs'; rewrite E64; lia.
      * rewrite (ParseUint_loop_digit_range _ _ _ _ Hdlo Hlo Hl').
        replace (_ <? 2 ^ 64) with false; [reflexivity|].
        symmetry; apply N.ltb_ge. rewrite E60 in Hl'; rewrite E64; lia.
    + rewrite (ParseUint_loop_digit_range _ _ n _ Hdhi Hhi Hl).
      replace (_ <? 2 ^ 64) with false; [reflexivity|].
      symmetry; apply N.ltb_ge. rewrite E60 in Hl; rewrite E64; lia.
Qed.

(** X1: [convertHexToUint] reads a byte slice of any length as a
    big-endian number and, when that number does not fit 64 bits, gives
    the largest [uint64] instead; the empty slice gives 0. *)
Theorem convertHexToUint_saturates (bs : list byte) :
  convertHexToUint bs =
  if uint_be bs <? 2 ^ 64 then uint_be bs else 2 ^ 64 - 1.
Proof.
  unfold convertHexToUint, ParseUint.
  destruct bs as [|b bs]; [reflexivity|].
  cbn [EncodeToString].
  match goal with
  | |- fst (ParseUint_loop ?s _ _ _ _) = _ =>
      change s with (EncodeToString (b :: bs))
  end.
  rewrite ParseUint_loop_hex_saturates by reflexivity.
  cbv zeta; fold (uint_be (b :: bs)).
  destruct (uint_be (b :: bs) <? 2 ^ 64); reflexivity.
Qed.

(** X2: the combination used for every field of a page or record,
    [convertHexToUint(reverseByteSlice(bs))], reads at most 8 bytes as a
    little-endian number; on 4 bytes the value is below 2^32. *)
Theorem convertHexToUint_reverse_little_endian (bs : list byte) :
  (length bs <= 8)%nat ->
  convertHexToUint (reverseByteSlice bs) = uint_le bs /\
  ((length bs <= 4)%nat -> convertHexToUint (reverseByteSlice bs) < 2 ^ 32).
Proof.
  intros H; split; [apply convertHexToUint_reverse_le; exact H|].
  intros H4; rewrite convertHexToUint_reverse_le by exact H.
  rewrite <- uint_be_rev; apply uint_be_4_bound; rewrite length_rev; exact H4.
Qed.

Lemma convertHexToUint_reverse_little_endian_witness :
  convertHexToUint (reverseByteSlice [x2b; x02; x00; x00]) = 555.
Proof.
  apply (convertHexToUint_reverse_little_endian [x2b; x02; x00; x00]).
  simpl; lia.
Defined.

(** ** scanUntilNullByte as a function of its argument *)

(** X3: [scanUntilNullByte] returns what stands before the first NUL byte,
    whatever follows it, and the whole argument when it holds no NUL. *)
Theorem scanUntilNullByte_prefix (pre post : list byte) :
  Forall (fun b => b <> x00) pre ->
  scanUntilNullByte (pre ++ x00 :: post) = pre /\
  scanUntilNullByte pre = pre.
Proof.
  induction 1 as [|b pre Hb _ [IH1 IH2]].
  - split; reflexivity.
  - cbn [app]; rewrite !scanUntilNullByte_cons.
    destruct (Byte.eqb b x00) eqn:E.
    + apply Byte.byte_dec_bl in E; contradiction.
    + rewrite IH1, IH2; split; reflexivity.
Qed.

Lemma scanUntilNullByte_prefix_witness :
  scanUntilNullByte ([x69; x64] ++ x00 :: [x41; x00; x42]) = [x69; x64].
Proof.
  apply (scanUntilNullByte_prefix [x69; x64] [x41; x00; x42]).
  repeat constructor; discriminate.
Defined.

(** ** Buffers too short for the magic number or the header *)

(** X4: [checkFileMagicNumber] panics exactly on a buffer of capacity
    below 4, where [data[:4]] is out of range. *)
Theorem checkFileMagicNumber_panics_iff (data : slice) :
  checkFileMagicNumber data = Panic <-> cap data < 4.
Proof.
  split.
  - intros H; destruct (N.lt_ge_cases (cap data) 4) as [Hlt|Hge]; [exact Hlt|].
    rewrite checkFileMagicNumber_spec in H by exact Hge.
    destruct (bytes_eqb (firstn 4 (backing data)) magic); discriminate.
  - intros H; unfold checkFileMagicNumber, slice_h.
    rewrite slice_lh_Panic by (right; exact H); reflexivity.
Qed.

Lemma parseSizeOfPages_loop_Panic (data : slice) (count : nat) (start : N) :
  (0 < count)%nat -> cap data < start + 4 * N.of_nat count ->
  parseSizeOfPages_loop data count start (start + 4) = Panic.
Proof.
  revert start; induction count as [|count IH]; intros start Hpos H; [lia|].
  cbn [parseSizeOfPages_loop].
  destruct (N.le_gt_cases (start + 4) (cap data)) as [Hle|Hgt].
  - rewrite slice_lh_Ok by lia; cbn [bind].
    rewrite IH by lia; reflexivity.
  - rewrite slice_lh_Panic by (right; lia); reflexivity.
Qed.

(** X5: [parseSizeOfPages] returns one size per announced page when the
    table of [pages] sizes ends within the capacity of the buffer, and
    panics otherwise; with no page announced it returns the empty table
    whatever the buffer. *)
Theorem parseSizeOfPages_outcome (data : slice) (pages : N) :
  pages < 2 ^ 63 ->
  (pages = 0 -> parseSizeOfPages data pages = Ok []) /\
  (8 + 4 * pages <= cap data ->
     exists sizes, parseSizeOfPages data pages = Ok sizes /\
                   N.of_nat (length sizes) = pages) /\
  (0 < pages -> cap data < 8 + 4 * pages ->
     parseSizeOfPages data pages = Panic).
Proof.
  intros Hp; unfold parseSizeOfPages.
  rewrite int_of_uint64_small by exact Hp.
  rewrite <- Z_N_nat, N2Z.id.
  change 12 with (8 + 4).
  split; [|split].
  - intros ->; reflexivity.
  - intros H; rewrite parseSizeOfPages_loop_spec by lia.
    eexists; split; [reflexivity|].
    rewrite length_map, length_seq; apply N2Nat.id.
  - intros Hpos H; apply parseSizeOfPages_loop_Panic; lia.
Qed.

Lemma parseSizeOfPages_outcome_witness :
  parseSizeOfPages three_pages 6 = Panic.
Proof.
  apply (parseSizeOfPages_outcome three_pages 6).
  - reflexivity.
  - reflexivity.
  - vm_compute; reflexivity.
Defined.

(** ** A file without pages *)

Lemma uint_be_zero_small (bs : list byte) : uint_be bs = 0 -> uint_be bs < 2 ^ 32.
Proof. intros ->; reflexivity. Qed.

(** X6: a buffer that starts with the magic and announces no page decodes
    to no cookie, whatever follows the first 8 bytes. *)
Theorem decodeFile_no_page (data : slice) :
  8 <= cap data ->
  firstn 4 (backing data) = magic ->
  uint_be (bytes_at (backing data) 4 4) = 0 ->
  decodeFile data = Ok (mkPages [] 0 [] 8, []).
Proof.
  intros Hcap Hmagic Hn; unfold decodeFile.
  rewrite checkFileMagicNumber_spec by lia.
  rewrite Hmagic; cbn [bind].
  replace (bytes_eqb magic magic) with true by reflexivity; cbn [bind].
  unfold extractPages.
  pose proof (extractPages_header_cap data) as Hh; cbv zeta in Hh.
  rewrite Hn in Hh; rewrite Hh by exact Hcap.
  reflexivity.
Qed.

Lemma decodeFile_no_page_witness :
  decodeFile (mkSlice (list_byte_of_string "cook"
                       ++ [x00; x00; x00; x00] ++ [x07; x08; x09]) [])
    = Ok (mkPages [] 0 [] 8, []).
Proof.
  apply decodeFile_no_page.
  - vm_compute; discriminate.
  - reflexivity.
  - reflexivity.
Defined.

(** ** Where the pages lie in the buffer *)

Lemma backing_slice_lh (s r : slice) (lo hi : N) :
  slice_lh s lo hi = Ok r ->
  backing r = skipn (N.to_nat lo) (backing s).
Proof.
  intros H; apply slice_lh_inv in H; destruct H as (Hlo & Hhi & He & Hs).
  unfold backing at 1; rewrite He, Hs; unfold bytes_at.
  replace (N.to_nat hi) with (N.to_nat (hi - lo) + N.to_nat lo)%nat by lia.
  rewrite <- skipn_skipn; apply firstn_skipn.
Qed.

Lemma backing_slice_l (s r : slice) (lo : N) :
  slice_l s lo = Ok r ->
  backing r = skipn (N.to_nat lo) (backing s).
Proof.
  intros H; apply slice_l_inv in H; destruct H as (Hlo & ->).
  unfold backing; cbn [elems spare]; rewrite skipn_app.
  replace (N.to_nat lo - length (elems s))%nat with 0%nat
    by (unfold len in Hlo; lia).
  reflexivity.
Qed.

Lemma sumN_firstn_le (sizes : list N) (i : nat) :
  sumN (firstn i sizes) <= sumN sizes.
Proof.
  revert i; induction sizes as [|a sizes IH]; intros [|i]; cbn; try lia.
  specialize (IH i); unfold sumN in IH; lia.
Qed.

Lemma sumN_cons (a : N) (l : list N) : sumN (a :: l) = a + sumN l.
Proof. reflexivity. Qed.

(** The page loop, page by page: the pages start where the cursor stands;
    the last one ends with the buffer; another one ends at
    headerSize + size, so that its length is its size less the cursor. *)
Lemma extractPages_loop_spans (data : slice) (h : N) (sizes : list N) (c : N)
    (ps : list page) :
  h + c + sumN sizes < 2 ^ 64 ->
  extractPages_loop data h sizes c = Ok ps ->
  length ps = length sizes /\
  forall i p, nth_error ps i = Some p ->
    let start := h + c + cursor_at sizes i in
    backing (page_rawBytes p) = skipn (N.to_nat start) (backing data) /\
    (S i = length sizes ->
       start <= len data /\
       elems (page_rawBytes p) = skipn (N.to_nat start) (elems data)) /\
    ((S i < length sizes)%nat ->
       c + cursor_at sizes i <= nth i sizes 0 /\
       h + nth i sizes 0 <= cap data /\
       len (page_rawBytes p) + (c + cursor_at sizes i) = nth i sizes 0).
Proof.
  assert (E64 : 2 ^ 64 = 18446744073709551616) by reflexivity.
  revert c ps; induction sizes as [|size_i rest IH]; intros c ps Hsum H.
  - injection H as <-; split; [reflexivity|].
    intros [|i] p Hp; discriminate Hp.
  - rewrite sumN_cons in Hsum.
    cbn [extractPages_loop] in H; destruct rest as [|size_j rest'].
    + bind_inv_as H raw Hraw; injection H as <-.
      rewrite wrap64_small in Hraw by lia.
      split; [reflexivity|].
      intros [|i] p Hp; [|destruct i; discriminate Hp].
      injection Hp as <-; cbn [page_rawBytes newPage].
      unfold cursor_at; cbn [firstn sumN fold_right]; rewrite N.add_0_r.
      split; [exact (backing_slice_l _ _ _ Hraw)|].
      split; [|cbn [length]; lia].
      intros _; apply slice_l_inv in Hraw; destruct Hraw as [Hlo ->].
      split; [exact Hlo | reflexivity].
    + bind_inv_as H raw Hraw; bind_inv_as H ps' Hps; injection H as <-.
      rewrite wrap64_small in Hraw by lia.
      rewrite (wrap64_small (h + size_i)) in Hraw by lia.
      rewrite wrap64_small in Hps by lia.
      destruct (IH (c + size_i) ps') as [IHlen IHnth]; [lia | exact Hps |].
      split; [cbn [length]; rewrite IHlen; reflexivity|].
      intros [|i] p Hp.
      * injection Hp as <-; cbn [page_rawBytes newPage].
        unfold cursor_at; cbn [firstn sumN fold_right nth]; rewrite N.add_0_r.
        split; [exact (backing_slice_lh _ _ _ _ Hraw)|].
        split; [cbn [length]; lia|].
        intros _; apply slice_lh_inv in Hraw.
        destruct Hraw as (Hlo & Hhi & He & _).
        unfold len; rewrite He, length_bytes_at; [lia|].
        unfold cap in Hhi; lia.
      * cbn [nth_error] in Hp.
        specialize (IHnth i p Hp); cbv zeta in IHnth.
        destruct IHnth as (Hb & Hlast & Hmid).
        assert (Ec : cursor_at (size_i :: size_j :: rest') (S i)
                     = size_i + cursor_at (size_j :: rest') i) by reflexivity.
        cbv zeta; rewrite Ec; cbn [nth].
        replace (h + c + (size_i + cursor_at (size_j :: rest') i))
          with (h + (c + size_i) + cursor_at (size_j :: rest') i) by lia.
        replace (c + (size_i + cursor_at (size_j :: rest') i))
          with (c + size_i + cursor_at (size_j :: rest') i) by lia.
        split; [exact Hb|].
        split.
        -- intros Hl; apply Hlast; cbn [length] in *; lia.
        -- intros Hl; apply Hmid; cbn [length] in *; lia.
Qed.

Lemma parseSizeOfPages_loop_length (data : slice) (count : nat) (a b : N)
    (sizes : list N) :
  parseSizeOfPages_loop data count a b = Ok sizes -> length sizes = count.
Proof.
  revert a b sizes; induction count as [|count IH]; intros a b sizes H.
  - injection H as <-; reflexivity.
  - cbn [parseSizeOfPages_loop] in H.
    bind_inv_as H s Hs; bind_inv_as H rest Hrest; injection H as <-.
    cbn [length]; f_equal; exact (IH _ _ _ Hrest).
Qed.

Lemma extractPages_inv (data : slice) (pgs : pages) :
  extractPages data = Ok pgs ->
  extractPages_loop data (headerSize pgs) (pageSizes pgs) 0
    = Ok (pages_pages pgs) /\
  N.of_nat (length (pageSizes pgs)) = numPages pgs.
Proof.
  unfold extractPages; intros H.
  bind_inv_as H hdr Hhdr; destruct hdr as [[n sizes] h].
  bind_inv_as H ps Hps; injection H as <-.
  cbn [headerSize pageSizes pages_pages numPages].
  split; [exact Hps|].
  unfold extractPages_header in Hhdr.
  bind_inv_as Hhdr s Hs; bind_inv_as Hhdr sizes' Hsizes.
  injection Hhdr as <- <- <-.
  apply slice_lh_inv in Hs; destruct Hs as (_ & _ & He & _).
  assert (Hn : convertHexToUint (elems s) < 2 ^ 32).
  { rewrite convertHexToUint_be
      by (rewrite He; eapply Nat.le_trans; [apply length_bytes_at_le | lia]).
    apply uint_be_4_bound; rewrite He; apply length_bytes_at_le. }
  unfold parseSizeOfPages in Hsizes.
  assert (E32 : 2 ^ 32 = 4294967296) by reflexivity.
  assert (E63 : 2 ^ 63 = 9223372036854775808) by reflexivity.
  rewrite int_of_uint64_small in Hsizes by (rewrite E63; rewrite E32 in Hn; lia).
  rewrite <- Z_N_nat, N2Z.id in Hsizes.
  rewrite (parseSizeOfPages_loop_length _ _ _ _ _ Hsizes).
  apply N2Nat.id.
Qed.

(** X7: when [extractPages] returns, there are as many pages as the header
    announces; page [i] starts at headerSize plus the sizes of the pages
    before it, and the last page runs to the end of the buffer whatever
    size the header gives it. *)
Theorem extractPages_page_starts (data : slice) (pgs : pages) :
  headerSize pgs + sumN (pageSizes pgs) < 2 ^ 64 ->
  extractPages data = Ok pgs ->
  N.of_nat (length (pages_pages pgs)) = numPages pgs /\
  forall i p, nth_error (pages_pages pgs) i = Some p ->
    let start := headerSize pgs + cursor_at (pageSizes pgs) i in
    backing (page_rawBytes p) = skipn (N.to_nat start) (backing data) /\
    (S i = length (pages_pages pgs) ->
       start <= len data /\
       elems (page_rawBytes p) = skipn (N.to_nat start) (elems data)).
Proof.
  intros Hsum H.
  destruct (extractPages_inv data pgs H) as [Hloop Hn].
  destruct (extractPages_loop_spans data _ _ 0 _
              ltac:(rewrite N.add_0_r; exact Hsum) Hloop) as [Hlen Hnth].
  split; [rewrite Hlen; exact Hn|].
  intros i p Hp; specialize (Hnth i p Hp); cbv zeta in Hnth.
  rewrite N.add_0_r in Hnth; destruct Hnth as (Hb & Hlast & _).
  cbv zeta; split; [exact Hb|].
  intros Hl; apply Hlast; rewrite <- Hlen; exact Hl.
Qed.

Lemma three_pages_decoded :
  exists pgs, extractPages three_pages = Ok pgs /\
              headerSize pgs + sumN (pageSizes pgs) < 2 ^ 64.
Proof. eexists; split; [vm_compute; reflexivity | vm_compute; reflexivity]. Qed.

Lemma extractPages_page_starts_witness :
  exists pgs,
    extractPages three_pages = Ok pgs /\
    N.of_nat (length (pages_pages pgs)) = numPages pgs.
Proof.
  destruct three_pages_decoded as (pgs & H & Hsum).
  exists pgs; split; [exact H|].
  apply (extractPages_page_starts three_pages pgs Hsum H).
Defined.

(** X8: when [extractPages] returns, a page that is not the last holds its
    announced size less the sizes of the pages before it, and the sizes
    before it do not exceed its own: only the first page of a file of
    several pages has its announced length. *)
Theorem extractPages_inner_page_length (data : slice) (pgs : pages) :
  headerSize pgs + sumN (pageSizes pgs) < 2 ^ 64 ->
  extractPages data = Ok pgs ->
  forall i p, nth_error (pages_pages pgs) i = Some p ->
    (S i < length (pages_pages pgs))%nat ->
    cursor_at (pageSizes pgs) i <= nth i (pageSizes pgs) 0 /\
    len (page_rawBytes p) + cursor_at (pageSizes pgs) i
      = nth i (pageSizes pgs) 0.
Proof.
  intros Hsum H i p Hp Hi.
  destruct (extractPages_inv data pgs H) as [Hloop Hn].
  destruct (extractPages_loop_spans data _ _ 0 _
              ltac:(rewrite N.add_0_r; exact Hsum) Hloop) as [Hlen Hnth].
  specialize (Hnth i p Hp); cbv zeta in Hnth.
  destruct Hnth as (_ & _ & Hmid).
  rewrite Hlen in Hi; specialize (Hmid Hi).
  rewrite !N.add_0_l in Hmid; tauto.
Qed.

Lemma extractPages_inner_page_length_witness :
  exists pgs p,
    extractPages three_pages = Ok pgs /\
    nth_error (pages_pages pgs) 1 = Some p /\
    len (page_rawBytes p) + cursor_at (pageSizes pgs) 1 = nth 1 (pageSizes pgs) 0.
Proof.
  destruct three_pages_decoded as (pgs & H & Hsum).
  assert (Hn : exists p, nth_error (pages_pages pgs) 1 = Some p /\
                         (2 < length (pages_pages pgs))%nat).
  { vm_compute in H; injection H as <-; eexists; split; [reflexivity|].
    cbn; lia. }
  destruct Hn as (p & Hp & Hl).
  exists pgs, p; split; [exact H|]; split; [exact Hp|].
  apply (extractPages_inner_page_length three_pages pgs Hsum H 1 p Hp Hl).
Defined.

(** ** The offset table of a page that is accepted *)

Lemma cookies_loop_offsets (raw : slice) (offs : list N) (cs : list cookie) :
  Forall (fun off => off < 2 ^ 32) offs ->
  cookies_loop raw offs = Ok cs ->
  nondecreasing offs /\ Forall (fun off => off <= len raw) offs.
Proof.
  revert cs; induction offs as [|off rest IH]; intros cs Hb H.
  - split; constructor.
  - inversion Hb as [|? ? Hoff Hrest]; subst.
    destruct (int_of_uint64_offset off Hoff) as [Hneg Hid].
    cbn [cookies_loop] in H.
    destruct rest as [|next rest'].
    + bind_inv_as H r Hr.
      unfold slice_l_int in Hr; rewrite Hneg, Hid in Hr.
      apply slice_l_inv in Hr; destruct Hr as [Hlo _].
      split; [cbn; auto | constructor; [exact Hlo | constructor]].
    + bind_inv_as H r Hr; bind_inv_as H cs' Hcs.
      inversion Hrest as [|? ? Hnext _]; subst.
      destruct (int_of_uint64_offset next Hnext) as [Hneg' Hid'].
      unfold slice_lh_int in Hr; rewrite Hneg, Hneg', Hid, Hid' in Hr.
      cbn [orb] in Hr.
      apply slice_lh_inv in Hr; destruct Hr as (Hlo & _).
      destruct (IH cs' Hrest Hcs) as [IHs IHb].
      split; [cbn [nondecreasing]; split; assumption|].
      constructor; [|exact IHb].
      inversion IHb; subst; lia.
Qed.

Lemma record_spans_tile (raw : slice) (off : N) (rest : list N) :
  nondecreasing (off :: rest) ->
  Forall (fun o => o <= len raw) (off :: rest) ->
  concat (record_spans raw (off :: rest)) = skipn (N.to_nat off) (elems raw).
Proof.
  revert off; induction rest as [|next rest IH]; intros off Hs Hb.
  - cbn [record_spans concat]; apply app_nil_r.
  - destruct Hs as [Hle Hs'].
    inversion Hb as [|? ? Hoff Hb']; subst.
    assert (Hnext : next <= len raw) by (inversion Hb'; assumption).
    change (record_spans raw (off :: next :: rest))
      with (bytes_at (backing raw) (N.to_nat off) (N.to_nat (next - off))
            :: record_spans raw (next :: rest)).
    cbn [concat]; rewrite (IH next Hs' Hb').
    rewrite bytes_at_backing by (unfold len in Hnext; lia).
    unfold bytes_at.
    replace (N.to_nat next) with (N.to_nat (next - off) + N.to_nat off)%nat by lia.
    rewrite <- skipn_skipn; apply firstn_skipn.
Qed.

(** X9: when the page loop of [extractCookiesFromPages] accepts a page
    fresh from [extractPages], the offsets of its table never decrease and
    none is beyond the end of the page. *)
Theorem extractCookiesFromPage_offsets_ordered (raw : slice) (p' : page) :
  extractCookiesFromPage (newPage raw) = Ok p' ->
  nondecreasing (cookieOffsets p') /\
  Forall (fun off => off <= len raw) (cookieOffsets p').
Proof.
  intros H.
  destruct (extractCookiesFromPage_inv (newPage raw) p' eq_refl eq_refl H)
    as [Hraw (_ & Ho & _)].
  unfold extractCookiesFromPage in H; cbn [cookieOffsets cookies newPage app] in H.
  bind_inv_as H a Ha; bind_inv_as H offs Hoffs; bind_inv_as H cs Hcs.
  injection H as <-; cbn [cookieOffsets page_rawBytes numCookiesInPage] in *.
  apply (cookies_loop_offsets raw offs cs); [|exact Hcs].
  rewrite Ho; apply offset_table_bound.
Qed.

(** A page with the two offsets 20 and 84. *)
Lemma extractCookiesFromPage_offsets_ordered_witness :
  exists p',
    extractCookiesFromPage (newPage two_record_page) = Ok p' /\
    cookieOffsets p' = [20; 84] /\
    nondecreasing (cookieOffsets p') /\
    Forall (fun off => off <= len two_record_page) (cookieOffsets p').
Proof.
  eexists; split; [vm_compute; reflexivity|].
  split; [reflexivity|].
  eapply (extractCookiesFromPage_offsets_ordered two_record_page).
  vm_compute; reflexivity.
Defined.

(** X10: the records of an accepted page follow each other without gap
    or overlap: put end to end, in the order of the table, they are the
    bytes of the page from the first offset to its end. *)
Theorem extractCookiesFromPage_records_tile (raw : slice) (p' : page)
    (off : N) (rest : list N) :
  extractCookiesFromPage (newPage raw) = Ok p' ->
  cookieOffsets p' = off :: rest ->
  concat (map (fun c => elems (rawBytes c)) (cookies p'))
    = skipn (N.to_nat off) (elems raw).
Proof.
  intros H Ho.
  destruct (extractCookiesFromPage_offsets_ordered raw p' H) as [Hs Hb].
  destruct (extractCookiesFromPage_inv (newPage raw) p' eq_refl eq_refl H)
    as [Hraw (_ & _ & Hspans & _)].
  cbn [page_rawBytes newPage] in Hraw.
  rewrite Hspans, Hraw, Ho.
  rewrite Ho in Hs, Hb.
  apply record_spans_tile; assumption.
Qed.

(** The two records of [two_record_page], of 64 bytes each, make up its
    bytes from offset 20 onwards. *)
Lemma extractCookiesFromPage_records_tile_witness :
  exists p',
    extractCookiesFromPage (newPage two_record_page) = Ok p' /\
    map (fun c => length (elems (rawBytes c))) (cookies p') = [64; 64]%nat /\
    concat (map (fun c => elems (rawBytes c)) (cookies p'))
      = skipn 20 (elems two_record_page).
Proof.
  eexists; split; [vm_compute; reflexivity|].
  split; [reflexivity|].
  eapply (extractCookiesFromPage_records_tile two_record_page _ 20 [84]).
  - vm_compute; reflexivity.
  - reflexivity.
Defined.

(** ** Cookie counts the program reads as intended *)

Lemma byte_to_N_zero (b : byte) : Byte.to_N b = 0 -> b = x00.
Proof.
  intros H.
  pose proof (Byte.of_to_N b) as E; rewrite H in E.
  injection E as <-; reflexivity.
Qed.

Lemma small_byte_count (b : byte) :
  Byte.to_N b < 10 ->
  fst (ParseUint (EncodeToString (reverseByteSlice [b; x00; x00; x00])) 10 64)
    = Byte.to_N b.
Proof.
  intros H.
  destruct b; try (vm_compute in H; discriminate H); vm_compute; reflexivity.
Qed.

(** X11: a cookie count below 10 is read as it is stored: on a page whose
    bytes [4,8) hold a little-endian value below 10, the count the
    program parses in base 10 is that value. *)
Theorem parseNumCookies_below_10 (raw : slice) :
  8 <= cap raw ->
  field_le (backing raw) 4 < 10 ->
  parseNumCookies raw = Ok (field_le (backing raw) 4).
Proof.
  intros Hcap Hv; unfold parseNumCookies.
  rewrite slice_lh_Ok by lia; cbn [bind elems].
  change (N.to_nat 4) with 4%nat; change (N.to_nat (8 - 4)) with 4%nat.
  unfold field_le in *.
  assert (Hl : length (bytes_at (backing raw) 4 4) = 4%nat)
    by (apply length_bytes_at; unfold cap in Hcap; lia).
  destruct (bytes_at (backing raw) 4 4) as [|b0 [|b1 [|b2 [|b3 [|b4 l]]]]];
    try discriminate Hl.
  cbn [uint_le] in Hv |- *.
  pose proof (Byte.to_N_bounded b0).
  assert (H1 : Byte.to_N b1 = 0) by lia.
  assert (H2 : Byte.to_N b2 = 0) by lia.
  assert (H3 : Byte.to_N b3 = 0) by lia.
  rewrite H1, H2, H3.
  apply byte_to_N_zero in H1, H2, H3; subst b1 b2 b3.
  rewrite small_byte_count by lia.
  f_equal; lia.
Qed.

Lemma parseNumCookies_below_10_witness :
  parseNumCookies file_fixture_page = Ok 1.
Proof.
  apply (parseNumCookies_below_10 file_fixture_page).
  - vm_compute; discriminate.
  - vm_compute; reflexivity.
Defined.

(** ** How a decode can end *)

Lemma no_exit_parseSizeOfPages_loop (data : slice) (count : nat) (a b : N) :
  no_exit (parseSizeOfPages_loop data count a b).
Proof.
  revert a b; induction count as [|count IH]; intros a b;
    cbn [parseSizeOfPages_loop]; [apply no_exit_Ok|].
  apply no_exit_bind; [apply no_exit_slice_lh | intros s].
  apply no_exit_bind; [apply IH | intros; apply no_exit_Ok].
Qed.

Lemma no_exit_extractPages_loop (data : slice) (h : N) (sizes : list N) (c : N) :
  no_exit (extractPages_loop data h sizes c).
Proof.
  revert c; induction sizes as [|size_i rest IH]; intros c;
    cbn [extractPages_loop]; [apply no_exit_Ok|].
  destruct rest as [|size_j rest'].
  - apply no_exit_bind; [apply no_exit_slice_l | intros; apply no_exit_Ok].
  - apply no_exit_bind; [apply no_exit_slice_lh | intros raw].
    apply no_exit_bind; [apply IH | intros; apply no_exit_Ok].
Qed.

Lemma no_exit_extractPages (data : slice) : no_exit (extractPages data).
Proof.
  unfold extractPages, extractPages_header, parseSizeOfPages.
  apply no_exit_bind.
  - apply no_exit_bind; [apply no_exit_slice_lh | intros s].
    apply no_exit_bind; [apply no_exit_parseSizeOfPages_loop | intros].
    apply no_exit_Ok.
  - intros [[n sizes] h].
    apply no_exit_bind; [apply no_exit_extractPages_loop | intros].
    apply no_exit_Ok.
Qed.

Lemma no_exit_cookieOffsets_loop (raw : slice) (count : nat) (a b : N) :
  no_exit (cookieOffsets_loop raw count a b).
Proof.
  revert a b; induction count as [|count IH]; intros a b;
    cbn [cookieOffsets_loop]; [apply no_exit_Ok|].
  apply no_exit_bind; [apply no_exit_readField | intros v].
  apply no_exit_bind; [apply IH | intros; apply no_exit_Ok].
Qed.

Lemma no_exit_slice_l_int (s : slice) (lo : Z) : no_exit (slice_l_int s lo).
Proof.
  unfold slice_l_int; destruct (lo <? 0)%Z;
    [intros st; discriminate | apply no_exit_slice_l].
Qed.

Lemma no_exit_slice_lh_int (s : slice) (lo hi : Z) :
  no_exit (slice_lh_int s lo hi).
Proof.
  unfold slice_lh_int; destruct ((lo <? 0) || (hi <? 0))%Z;
    [intros st; discriminate | apply no_exit_slice_lh].
Qed.

Lemma no_exit_cookies_loop (raw : slice) (offs : list N) :
  no_exit (cookies_loop raw offs).
Proof.
  induction offs as [|off rest IH]; cbn [cookies_loop]; [apply no_exit_Ok|].
  destruct rest as [|next rest'].
  - apply no_exit_bind; [apply no_exit_slice_l_int | intros; apply no_exit_Ok].
  - apply no_exit_bind; [apply no_exit_slice_lh_int | intros r].
    apply no_exit_bind; [apply IH | intros; apply no_exit_Ok].
Qed.

Lemma no_exit_extractCookiesFromPage (p : page) :
  no_exit (extractCookiesFromPage p).
Proof.
  unfold extractCookiesFromPage, parseNumCookies.
  apply no_exit_bind.
  - apply no_exit_bind; [apply no_exit_slice_lh | intros; apply no_exit_Ok].
  - intros a.
    apply no_exit_bind; [apply no_exit_cookieOffsets_loop | intros offs].
    apply no_exit_bind; [apply no_exit_cookies_loop | intros; apply no_exit_Ok].
Qed.

Lemma no_exit_extractCookiesFromPages (pgs : pages) :
  no_exit (extractCookiesFromPages pgs).
Proof.
  unfold extractCookiesFromPages.
  apply no_exit_bind; [|intros; apply no_exit_Ok].
  induction (pages_pages pgs) as [|p ps IH];
    cbn [extractCookiesFromPages_loop]; [apply no_exit_Ok|].
  apply no_exit_bind; [apply no_exit_extractCookiesFromPage | intros p'].
  apply no_exit_bind; [apply IH | intros; apply no_exit_Ok].
Qed.

Lemma no_exit_decodeCookies_page (cs allCookies : list cookie) :
  no_exit (decodeCookies_page cs allCookies).
Proof.
  revert allCookies; induction cs as [|ck cs IH]; intros allCookies;
    cbn [decodeCookies_page]; [apply no_exit_Ok|].
  apply no_exit_bind; [apply no_exit_decodeCookie | intros [c1 c2]].
  apply no_exit_bind; [apply IH | intros [r1 r2]; apply no_exit_Ok].
Qed.

Lemma no_exit_decodeCookies (pgs : pages) (allCookies : list cookie) :
  no_exit (decodeCookies pgs allCookies).
Proof.
  unfold decodeCookies.
  apply no_exit_bind; [|intros [ps all1]; apply no_exit_Ok].
  revert allCookies; induction (pages_pages pgs) as [|p ps IH];
    intros allCookies; cbn [decodeCookies_loop]; [apply no_exit_Ok|].
  apply no_exit_bind; [apply no_exit_decodeCookies_page | intros [cs all1]].
  apply no_exit_bind; [apply IH | intros [r1 r2]; apply no_exit_Ok].
Qed.

(** X12: a decode ends the process on purpose only through the magic
    check: [decodeFile] gives exit status 1 exactly when the buffer has 4
    bytes of capacity that differ from "cook", and no other status; every
    other failure of a decode is a panic. *)
Theorem decodeFile_exit_iff (data : slice) (st : Z) :
  decodeFile data = Exit st <->
  st = 1%Z /\ 4 <= cap data /\ firstn 4 (backing data) <> magic.
Proof.
  unfold decodeFile; split.
  - intros H.
    destruct (N.lt_ge_cases (cap data) 4) as [Hlt|Hge].
    + apply checkFileMagicNumber_panics_iff in Hlt; rewrite Hlt in H.
      discriminate H.
    + rewrite checkFileMagicNumber_spec in H by exact Hge.
      destruct (bytes_eqb (firstn 4 (backing data)) magic) eqn:Hm;
        cbn [bind] in H.
      * exfalso; revert H.
        apply no_exit_bind; [apply no_exit_extractPages | intros pgs].
        apply no_exit_bind; [apply no_exit_extractCookiesFromPages | intros pgs'].
        apply no_exit_decodeCookies.
      * injection H as <-; repeat split; [exact Hge|].
        intros Heq; apply bytes_eqb_eq in Heq; congruence.
  - intros (-> & Hge & Hne).
    rewrite checkFileMagicNumber_spec by exact Hge.
    destruct (bytes_eqb (firstn 4 (backing data)) magic) eqn:Hm;
      [apply bytes_eqb_eq in Hm; contradiction | reflexivity].
Qed.

(** ** The command line *)

Lemma unknownFormat_false_iff (f : string) :
  unknownFormat f = false <->
  In f ["table"; "list"; "json"; "csv"; "xml"]%string.
Proof.
  unfold unknownFormat; cbn [In].
  destruct (String.eqb_spec f "table"); [subst; cbn; tauto|].
  destruct (String.eqb_spec f "list"); [subst; cbn; tauto|].
  destruct (String.eqb_spec f "json"); [subst; cbn; tauto|].
  destruct (String.eqb_spec f "csv"); [subst; cbn; tauto|].
  destruct (String.eqb_spec f "xml"); [subst; cbn; tauto|].
  cbn; split; [discriminate|].
  intros [H|[H|[H|[H|[H|[]]]]]]; symmetry in H; contradiction.
Qed.

Lemma parseComLineFlags_tests_cases (fl : flagValues) :
  (flagsAccepted fl /\ parseComLineFlags_tests fl = ([], Ok tt)) \/
  (~ flagsAccepted fl /\
   exists ev, parseComLineFlags_tests fl = (ev, Exit 1) /\
              ev <> [] /\ ~ In neverRuns ev).
Proof.
  unfold parseComLineFlags_tests, flagsAccepted.
  destruct (version fl) eqn:Hv.
  { right; split; [intros (H & _); discriminate H|].
    eexists; split; [reflexivity|]; split; [discriminate|].
    cbn; intros [H|[]]; discriminate H. }
  destruct (String.eqb_spec (file fl) "") as [Hf|Hf].
  { right; split; [intros (_ & H & _); contradiction|].
    eexists; split; [reflexivity|]; split; [discriminate|].
    cbn; intros [H|[H|[]]]; discriminate H. }
  destruct (unknownFormat (format fl)) eqn:Hu.
  - right; split.
    + intros (_ & _ & H); apply unknownFormat_false_iff in H; congruence.
    + destruct (debug fl); (eexists; split; [reflexivity|]; split; [discriminate|]).
      * cbn; intros [H|[H|[H|[]]]]; discriminate H.
      * cbn; intros [H|[]]; discriminate H.
  - left; split; [|reflexivity].
    apply unknownFormat_false_iff in Hu; auto.
Qed.

(** X13: [parseComLineFlags] returns, and then has printed nothing,
    exactly when [flag.Parse] returns with [-v] absent, [-i] not empty
    and [-f] one of table, list, json, csv, xml.  When [flag.Parse]
    returns with other flag values, [-v] included, it prints something
    and ends the process with status 1.  When [flag.Parse] itself ends
    the process, on [-h] with status 0 and on an undefined or malformed
    flag with status 2, nothing else is written. *)
Theorem parseComLineFlags_accepts_iff (p : flagParse) :
  (forall fl, parseComLineFlags p = ([], Ok fl) <->
              p = Parsed fl /\ flagsAccepted fl) /\
  (forall fl, p = Parsed fl -> ~ flagsAccepted fl ->
              snd (parseComLineFlags p) = Exit 1 /\
              fst (parseComLineFlags p) <> []) /\
  (forall usage, p = HelpRequested usage ->
                 parseComLineFlags p = ([Stderr usage], Exit 0)) /\
  (forall message, p = BadCommandLine message ->
                   parseComLineFlags p = ([Stderr message], Exit 2)) /\
  (forall fl, snd (parseComLineFlags p) = Ok fl ->
              parseComLineFlags p = ([], Ok fl)).
Proof.
  unfold parseComLineFlags.
  destruct p as [fl0|usage|message]; cbn [flag_Parse lift io_bind app].
  - destruct (parseComLineFlags_tests_cases fl0)
      as [[Ha E]|[Hn (ev & E & Hev & _)]]; rewrite E; cbn [io_bind lift app fst snd].
    + split.
      { intros fl; split.
        - intros H; injection H as <-; auto.
        - intros [H _]; injection H as <-; reflexivity. }
      split; [intros fl H Hn; injection H as <-; contradiction|].
      split; [intros usage H; discriminate H|].
      split; [intros message H; discriminate H|].
      intros fl H; injection H as <-; reflexivity.
    + split.
      { intros fl; split.
        - intros H; discriminate H.
        - intros [H Ha]; injection H as <-; contradiction. }
      split; [intros fl H _; split; [reflexivity | exact Hev]|].
      split; [intros usage H; discriminate H|].
      split; [intros message H; discriminate H|].
      intros fl H; discriminate H.
  - split; [intros fl; split; [intros H | intros [H _]]; discriminate H|].
    split; [intros fl H; discriminate H|].
    split; [intros u H; injection H as <-; reflexivity|].
    split; [intros m H; discriminate H|].
    intros fl H; discriminate H.
  - split; [intros fl; split; [intros H | intros [H _]]; discriminate H|].
    split; [intros fl H; discriminate H|].
    split; [intros u H; discriminate H|].
    split; [intros m H; injection H as <-; reflexivity|].
    intros fl H; discriminate H.
Qed.

Lemma outputSwitch_accepted (f : string) (cs : list cookie) :
  In f ["table"; "list"; "json"; "csv"; "xml"]%string ->
  exists o, outputFunction_of f = Some o /\ outputSwitch f cs = ([Output o cs], Ok tt).
Proof.
  intros [H|[H|[H|[H|[H|[]]]]]]; subst f; eexists; split; reflexivity.
Qed.

(** X14: the default branch of the [switch] of [main] is dead code: no
    run writes "This should never run".  A run that ends normally had
    valid flags, read the file without error, decoded it, and called
    exactly the output function of its format on the decoded cookies,
    writing nothing else. *)
Theorem main_default_branch_unreachable (p : flagParse)
    (ReadFile : string -> slice * option string) :
  ~ In neverRuns (fst (main p ReadFile)) /\
  (snd (main p ReadFile) = Ok tt ->
   exists fl pgs cs o,
     p = Parsed fl /\
     flagsAccepted fl /\
     snd (ReadFile (file fl)) = None /\
     decodeFile (fst (ReadFile (file fl))) = Ok (pgs, cs) /\
     outputFunction_of (format fl) = Some o /\
     fst (main p ReadFile) = [Output o cs]).
Proof.
  unfold main, parseComLineFlags.
  destruct p as [fl|usage|message]; cbn [flag_Parse lift io_bind app fst snd];
    try (split; [cbn; intros [H|[]]; discriminate H | discriminate]).
  destruct (parseComLineFlags_tests_cases fl) as [[Ha E]|[Hn (ev & E & _ & Hev)]];
    rewrite E; cbn [io_bind lift app fst snd];
    [|split; [exact Hev | discriminate]].
  destruct (ReadFile (file fl)) as [data [err|]] eqn:ER; cbn [fst snd handleError].
  { cbn; split; [intros [H|[]]; discriminate H | discriminate]. }
  cbn [lift io_bind app].
  unfold checkFileMagicNumber_io.
  destruct (checkFileMagicNumber data) as [[]| |st] eqn:E1;
    cbn [lift io_bind bind app fst snd].
  - destruct (extractPages data) as [pgs| |st] eqn:E2;
      cbn [io_bind bind app fst snd]; try (split; [intros [] | discriminate]).
    destruct (extractCookiesFromPages pgs) as [pgs'| |st] eqn:E3;
      cbn [io_bind bind app fst snd]; try (split; [intros [] | discriminate]).
    destruct (decodeCookies pgs' []) as [[pgs2 cs]| |st] eqn:E4;
      cbn [io_bind bind app fst snd]; try (split; [intros [] | discriminate]).
    destruct (outputSwitch_accepted (format fl) cs (proj2 (proj2 Ha)))
      as (o & Ho & Hsw).
    rewrite Hsw; cbn [fst snd app].
    split; [intros [H|[]]; discriminate H|].
    intros _; exists fl, pgs2, cs, o.
    rewrite ER; cbn [fst snd]; unfold decodeFile.
    rewrite E1; cbn [bind]; rewrite E2; cbn [bind]; rewrite E3; cbn [bind].
    repeat split; auto; apply Ha.
  - split; [intros [] | discriminate].
  - split; [cbn; intros [H|[]]; discriminate H | discriminate].
Qed.
